(** * A compiler front end: symbol table, three-address code generator,
      semantic analyzer and recursive-descent parser

    Shallow embedding of [src/semantic_analyzer.py] and
    [src/sintax_analyzer.py].  Python objects are explicit values, the
    analyzer's mutable attributes are an explicit state, and a raised
    exception is an outcome that still carries the state reached so far
    (Python does not roll back what was emitted before the [raise]). *)

From Stdlib Require Import ZArith QArith Lia Ascii String.
From stdpp Require Import base strings gmap list sorting pretty.

Local Open Scope string_scope.
Local Open Scope list_scope.
Local Open Scope Z_scope.

(** ** Python data *)

(** The values that occur in nodes and in instructions.  A [dict] with
    string keys is the list of its items (the keys are distinct), looked
    up from the front.  A [float] is carried as the rational it denotes
    and a [str] as the bytes of its UTF-8 encoding, which is what a
    string literal of this file holds: the analyzer only looks at the
    class of a value, at the number a size denotes and at the number of
    characters of a string. *)
#[warnings="-register-all"] Inductive pyval :=
| PNone
| PBool (b : bool)
| PInt (z : Z)
| PFloat (q : Q)
| PStr (s : string)
| PList (xs : list pyval)
| PDict (kvs : list (string * pyval)).

Definition dict := list (string * pyval).

(** [key in d] and [d.get(key)]. *)
Fixpoint get (key : string) (d : dict) : option pyval :=
  match d with
  | [] => None
  | (k, v) :: d' => if String.eqb k key then Some v else get key d'
  end.

Definition has_key (key : string) (d : dict) : bool :=
  match get key d with Some _ => true | None => false end.

(** [v == 'lit'] for a string literal on the right: only a [str] can be
    equal to it. *)
Definition str_eq (v : pyval) (lit : string) : bool :=
  match v with PStr s => String.eqb s lit | _ => false end.

(** [len(s)] of a [str]: the number of its characters, that is, of the
    bytes of its encoding that do not continue a character (the bytes
    [10xxxxxx]). *)
Definition continues (c : ascii) : bool :=
  match c with Ascii _ _ _ _ _ _ b6 b7 => b7 && negb b6 end.

Fixpoint len (s : string) : nat :=
  match s with
  | EmptyString => 0
  | String c s' => ((if continues c then 0 else 1) + len s')%nat
  end.

(** The number a value denotes where Python orders and equates numbers
    ([True == 1 == 1.0]); nothing else is ordered with [0]. *)
Definition number_of (v : pyval) : option Q :=
  match v with
  | PBool b => Some (if b then 1%Q else 0%Q)
  | PInt z => Some (inject_Z z)
  | PFloat q => Some (Qred q)
  | _ => None
  end.

(** Truth value of an object, as [if v:] takes it. *)
Definition truthy (v : pyval) : bool :=
  match v with
  | PNone => false
  | PBool b => b
  | PInt z => negb (Z.eqb z 0)
  | PFloat q => negb (Qeq_bool q 0)
  | PStr s => negb (String.eqb s "")
  | PList xs => match xs with [] => false | _ => true end
  | PDict kvs => match kvs with [] => false | _ => true end
  end.

(** ** Types of symbols *)

Inductive SymbolType := INT | FLOAT | CHAR | BOOL | ARRAY | FUNCTION.

Inductive SymbolInfo :=
| Sym (t : SymbolType)
| ArrayType (base_type : SymbolType) (size : Q)
| FunctionType (return_type : SymbolType) (params : list SymbolType).

Arguments ArrayType base_type size%_Q.

#[global] Instance SymbolType_eq_dec : EqDecision SymbolType.
Proof. solve_decision. Defined.

#[global] Instance Q_eq_dec : EqDecision Q.
Proof. solve_decision. Defined.

#[global] Instance SymbolInfo_eq_dec : EqDecision SymbolInfo.
Proof. solve_decision. Defined.

(** [SymbolType(value)]: the member whose value is [value]. *)
Definition SymbolType_of (v : pyval) : option SymbolType :=
  if str_eq v "int" then Some INT
  else if str_eq v "float" then Some FLOAT
  else if str_eq v "char" then Some CHAR
  else if str_eq v "bool" then Some BOOL
  else if str_eq v "array" then Some ARRAY
  else if str_eq v "function" then Some FUNCTION
  else None.

(** A type slot of the analyzer holds a [SymbolInfo] or Python's [None]. *)
Definition pytype := option SymbolInfo.

Definition type_is (t : pytype) (s : SymbolType) : bool :=
  bool_decide (t = Some (Sym s)).

(** [isinstance(t, ArrayType)] and the dataclasses, which define [__eq__]
    and are therefore unhashable. *)
Definition is_ArrayType (t : SymbolInfo) : bool :=
  match t with ArrayType _ _ => true | _ => false end.

Definition unhashable (t : pytype) : bool :=
  match t with
  | Some (ArrayType _ _) | Some (FunctionType _ _) => true
  | _ => false
  end.

(** ** Exceptions

    Every error of the analyzer is a [ValueError]; its text is kept as a
    constructor per [raise] site, with the values the f-string
    interpolates. *)
Inductive message :=
| AlreadyDeclared (name : string)
    (* Variable '{name}' already declared *)
| NotDeclared (name : string)
    (* Variable '{name}' not declared *)
| ArraySizeNotPositive
    (* Array size must be positive *)
| NotAValidSymbolType (v : pyval)
    (* {v!r} is not a valid SymbolType *)
| DeclarationError (inner : message)
    (* Declaration error: {inner} *)
| CannotAssignConstant (name : string)
    (* Cannot assign to constant '{name}' *)
| CannotAssignArray (name : string)
    (* Cannot directly assign to array '{name}' *)
| AssignmentTypeMismatch (name : string)
    (* Type mismatch in assignment to '{name}' *)
| AssignmentError (inner : message)
    (* Assignment error: {inner} *)
| InvalidOperands (op : pyval)
    (* Invalid operands for '{op}' operation *)
| RelationalTypeMismatch (op : pyval)
    (* Type mismatch in relational operation '{op}' *)
| InvalidLogicalOperands (op : pyval)
    (* Invalid operands for logical '{op}' operation *)
| UnknownOperator (op : pyval)
    (* Unknown operator '{op}' *)
| InvalidNotOperand
    (* Invalid operand for logical NOT '!' operation *)
| InvalidNegOperand
    (* Invalid operand for unary '-' operation *)
| UnknownUnaryOperator (op : pyval)
    (* Unknown unary operator '{op}' *)
| NotAnArray (name : string)
    (* '{name}' is not an array *)
| IndexNotInteger
    (* Array index must be integer *)
| ArrayAccessError (inner : message)
    (* Array access error: {inner} *)
| FunctionNotDeclared (name : string)
    (* Function '{name}' not declared *)
| WrongArgumentCount (name : string) (expected : nat)
    (* Function '{name}' expects {expected} arguments *)
| ArgumentTypeMismatch (position : nat) (name : string)
    (* Argument {position} type mismatch in call to '{name}' *)
| ElementTypeMismatch (name : string)
    (* Array element type mismatch in assignment to '{name}' *)
| IfConditionNotBoolean
    (* If condition must be boolean *)
| WhileConditionNotBoolean
    (* While condition must be boolean *)
| InvalidLiteral (v : pyval).
    (* Invalid literal value: {v} *)

(** [KeyError] and [PyTypeError] are the interpreter's own exceptions (a
    missing key, subscripting something that is not a [dict], hashing a
    dataclass instance, ordering something that is no number with [0]).
    [IllFormed] marks a field whose value has not the shape the node
    format gives it (a name that is not a [str], an argument list that is
    not a [list]): such trees are outside this model. *)
Inductive exn :=
| ValueError (m : message)
| KeyError (key : string)
| PyTypeError (what : string)
| IllFormed (field : string).

Inductive outcome (A : Type) :=
| Ok (a : A)
| Raise (e : exn).
Arguments Ok {A} a.
Arguments Raise {A} e.

(** ** SymbolTable *)

(** An entry [{'type': ..., 'is_const': ...}]; [is_const] is kept as the
    truth value the analyzer tests. *)
Record entry := Entry { type : SymbolInfo; is_const : bool }.

#[warnings="-register-all"] Inductive SymbolTable :=
  mkSymbolTable { table : gmap string entry; parent : option SymbolTable }.

Definition add_symbol (name : string) (symbol_type : SymbolInfo)
    (const : bool) (self : SymbolTable) : outcome SymbolTable :=
  match table self !! name with
  | Some _ => Raise (ValueError (AlreadyDeclared name))
  | None =>
      Ok (mkSymbolTable (<[name := Entry symbol_type const]> (table self))
                        (parent self))
  end.

Fixpoint check_symbol (name : string) (self : SymbolTable) : outcome entry :=
  match self with
  | mkSymbolTable t p =>
      match t !! name with
      | Some e => Ok e
      | None =>
          match p with
          | Some up => check_symbol name up
          | None => Raise (ValueError (NotDeclared name))
          end
      end
  end.

(** ** IntermediateCodeGenerator *)

(** An instruction is the tuple [(op, arg1, arg2, result)]. *)
Definition instr := (pyval * pyval * pyval * pyval)%type.

Record IntermediateCodeGenerator := mkGen {
  code : list instr;
  temp_count : nat;
  label_count : nat
}.

Definition new_gen : IntermediateCodeGenerator := mkGen [] 0%nat 0%nat.

(** [f"t{n}"] and [f"L{n}"] *)
Definition temp_name (n : nat) : string := "t" +:+ pretty n.
Definition label_name (n : nat) : string := "L" +:+ pretty n.

Definition new_temp (g : IntermediateCodeGenerator)
  : string * IntermediateCodeGenerator :=
  (temp_name (temp_count g),
   mkGen (code g) (temp_count g + 1)%nat (label_count g)).

Definition new_label (g : IntermediateCodeGenerator)
  : string * IntermediateCodeGenerator :=
  (label_name (label_count g),
   mkGen (code g) (temp_count g) (label_count g + 1)%nat).

Definition emit (op arg1 arg2 result : pyval) (g : IntermediateCodeGenerator)
  : IntermediateCodeGenerator :=
  mkGen (code g ++ [(op, arg1, arg2, result)]) (temp_count g) (label_count g).

Definition get_code (g : IntermediateCodeGenerator) : list instr := code g.

(** A session of one generator: the calls made on it, in order, and what
    each [new_temp] and [new_label] returned. *)
Inductive gen_call := call_new_temp | call_new_label | call_emit (i : instr).

Inductive issued := Temp (name : string) | Label (name : string).

Fixpoint session (calls : list gen_call) (g : IntermediateCodeGenerator)
  : list issued * IntermediateCodeGenerator :=
  match calls with
  | [] => ([], g)
  | call_new_temp :: calls' =>
      let '(t, g1) := new_temp g in
      let '(log, g2) := session calls' g1 in (Temp t :: log, g2)
  | call_new_label :: calls' =>
      let '(l, g1) := new_label g in
      let '(log, g2) := session calls' g1 in (Label l :: log, g2)
  | call_emit (op, arg1, arg2, result) :: calls' =>
      session calls' (emit op arg1 arg2 result g)
  end.

Definition temps_of (log : list issued) : list string :=
  omap (λ i, match i with Temp t => Some t | Label _ => None end) log.

Definition labels_of (log : list issued) : list string :=
  omap (λ i, match i with Label l => Some l | Temp _ => None end) log.

Fixpoint count_temps (calls : list gen_call) : nat :=
  match calls with
  | [] => 0
  | call_new_temp :: calls' => S (count_temps calls')
  | _ :: calls' => count_temps calls'
  end.

Fixpoint count_labels (calls : list gen_call) : nat :=
  match calls with
  | [] => 0
  | call_new_label :: calls' => S (count_labels calls')
  | _ :: calls' => count_labels calls'
  end.

Definition emitted (calls : list gen_call) : list instr :=
  omap (λ c, match c with call_emit i => Some i | _ => None end) calls.

(** ** SemanticAnalyzer: state and control *)

(** An entry [{'return_type': ..., 'params': [...]}] of [self.functions],
    which the caller fills in before any call is analyzed. *)
Record func_info := FuncInfo {
  return_type : SymbolInfo;
  params : list SymbolInfo
}.

Record SemanticAnalyzer := mkAnalyzer {
  current_scope : SymbolTable;
  code_gen : IntermediateCodeGenerator;
  functions : gmap string func_info
}.

Definition new_analyzer : SemanticAnalyzer :=
  mkAnalyzer (mkSymbolTable ∅ None) new_gen ∅.

(** A method body: it runs on the analyzer and leaves it changed, whether
    it returns or raises. *)
Definition M (A : Type) : Type := SemanticAnalyzer → outcome A * SemanticAnalyzer.

Definition ret {A} (a : A) : M A := λ s, (Ok a, s).

Definition raise {A} (e : exn) : M A := λ s, (Raise e, s).

Definition bind {A B} (m : M A) (k : A → M B) : M B :=
  λ s, match m s with
       | (Ok a, s') => k a s'
       | (Raise e, s') => (Raise e, s')
       end.

Notation "'let*' p ':=' m 'in' k" := (bind m (λ p, k))
  (at level 10, p pattern, m at level 100, k at level 200, only parsing).

(** [try: body  except ValueError as e: raise ValueError(prefix + str(e))] *)
Definition reraise {A} (wrap : message → message) (body : M A) : M A :=
  λ s, match body s with
       | (Raise (ValueError m), s') => (Raise (ValueError (wrap m)), s')
       | r => r
       end.

Definition enter_scope : M unit :=
  λ s, (Ok (), mkAnalyzer (mkSymbolTable ∅ (Some (current_scope s)))
                          (code_gen s) (functions s)).

Definition exit_scope : M unit :=
  λ s, match parent (current_scope s) with
       | Some up => (Ok (), mkAnalyzer up (code_gen s) (functions s))
       | None => (Ok (), s)
       end.

(** The analyzer with its generator in a new state. *)
Definition with_gen (s : SemanticAnalyzer) (g : IntermediateCodeGenerator)
  : SemanticAnalyzer :=
  mkAnalyzer (current_scope s) g (functions s).

(** The three methods of [self.code_gen], run on the analyzer. *)
Definition gen_temp : M string :=
  λ s, let '(t, g) := new_temp (code_gen s) in (Ok t, with_gen s g).

Definition gen_label : M string :=
  λ s, let '(l, g) := new_label (code_gen s) in (Ok l, with_gen s g).

Definition gen_emit (op arg1 arg2 result : pyval) : M unit :=
  λ s, (Ok (), with_gen s (emit op arg1 arg2 result (code_gen s))).

(** [self.current_scope.check_symbol(name)] and [.add_symbol(...)]. *)
Definition scope_check (name : string) : M entry :=
  λ s, (check_symbol name (current_scope s), s).

Definition scope_add (name : string) (t : SymbolInfo) (const : bool) : M unit :=
  λ s, match add_symbol name t const (current_scope s) with
       | Ok sc => (Ok (), mkAnalyzer sc (code_gen s) (functions s))
       | Raise e => (Raise e, s)
       end.

(** ** SemanticAnalyzer: the type rules *)

(** [array_size] is whatever the node holds under that key: a bool, an
    int or a float is ordered with [0], anything else is not and the
    comparison raises the interpreter's [TypeError], which the [except]
    clause does not catch.  The [ArrayType] holds the size as the number
    it denotes, so that two array types are equal when Python finds their
    dataclasses equal. *)
Definition analyze_declaration (type_spec : pyval) (var_name : string)
    (const : bool) (array_size : option pyval) : M unit :=
  reraise DeclarationError
    (let* symbol_type :=
       match array_size with
       | Some size =>
           match number_of size with
           | None => raise (PyTypeError "'<=' not supported")
           | Some n =>
               if Qle_bool n 0 then raise (ValueError ArraySizeNotPositive)
               else match SymbolType_of type_spec with
                    | Some base_type => ret (ArrayType base_type n)
                    | None => raise (ValueError (NotAValidSymbolType type_spec))
                    end
           end
       | None =>
           match SymbolType_of type_spec with
           | Some t => ret (Sym t)
           | None => raise (ValueError (NotAValidSymbolType type_spec))
           end
       end in
     scope_add var_name symbol_type const).

Definition analyze_assignment (var_name : string) (expr_type : pytype)
  : M SymbolInfo :=
  reraise AssignmentError
    (let* var_info := scope_check var_name in
     if is_const var_info then
       raise (ValueError (CannotAssignConstant var_name))
     else if is_ArrayType (type var_info) then
       raise (ValueError (CannotAssignArray var_name))
     else if negb (bool_decide (Some (type var_info) = expr_type)) then
       if bool_decide (type var_info = Sym FLOAT) && type_is expr_type INT
       then ret (Sym FLOAT)
       else raise (ValueError (AssignmentTypeMismatch var_name))
     else ret (type var_info)).

Definition op_in (op : pyval) (ops : list string) : bool :=
  existsb (str_eq op) ops.

Definition numeric (t : pytype) : bool := type_is t INT || type_is t FLOAT.

Definition analyze_binary_op (left_type right_type : pytype) (op : pyval)
  : M SymbolInfo :=
  if op_in op ["+"; "-"; "*"; "/"] then
    if negb (numeric left_type) || negb (numeric right_type) then
      raise (ValueError (InvalidOperands op))
    else if type_is left_type FLOAT || type_is right_type FLOAT then
      ret (Sym FLOAT)
    else ret (Sym INT)
  else if op_in op ["<"; ">"; "<="; ">="; "=="; "!="] then
    if negb (bool_decide (left_type = right_type)) then
      (* the set display hashes both operands *)
      if unhashable left_type || unhashable right_type then
        raise (PyTypeError "unhashable type")
      else if (type_is left_type INT && type_is right_type FLOAT)
              || (type_is left_type FLOAT && type_is right_type INT) then
        ret (Sym BOOL)
      else raise (ValueError (RelationalTypeMismatch op))
    else ret (Sym BOOL)
  else if op_in op ["&&"; "||"] then
    if negb (type_is left_type BOOL) || negb (type_is right_type BOOL) then
      raise (ValueError (InvalidLogicalOperands op))
    else ret (Sym BOOL)
  else raise (ValueError (UnknownOperator op)).

(** The operand of unary minus is returned as it came; it is INT or FLOAT
    there. *)
Definition analyze_unary_op (operand_type : pytype) (op : pyval)
  : M pytype :=
  if str_eq op "!" then
    if negb (type_is operand_type BOOL) then
      raise (ValueError InvalidNotOperand)
    else ret (Some (Sym BOOL))
  else if str_eq op "-" then
    if negb (numeric operand_type) then raise (ValueError InvalidNegOperand)
    else ret operand_type
  else raise (ValueError (UnknownUnaryOperator op)).

Definition analyze_array_access (array_name : string) (index_type : pytype)
  : M SymbolType :=
  reraise ArrayAccessError
    (let* array_info := scope_check array_name in
     match type array_info with
     | ArrayType base _ =>
         if negb (type_is index_type INT) then
           raise (ValueError IndexNotInteger)
         else ret base
     | _ => raise (ValueError (NotAnArray array_name))
     end).

(** The loop over [zip(arg_types, params)]: the first position (from
    [i]) where the two differ. *)
Fixpoint first_mismatch (i : nat) (arg_types : list pytype)
    (ps : list SymbolInfo) : option nat :=
  match arg_types, ps with
  | a :: arg_types', p :: ps' =>
      if negb (bool_decide (a = Some p)) then Some i
      else first_mismatch (S i) arg_types' ps'
  | _, _ => None
  end.

Definition analyze_function_call (func_name : string)
    (arg_types : list pytype) : M SymbolInfo :=
  λ s, match functions s !! func_name with
       | None => (Raise (ValueError (FunctionNotDeclared func_name)), s)
       | Some func_info =>
           if negb (length arg_types =? length (params func_info))%nat then
             (Raise (ValueError (WrongArgumentCount func_name
                                   (length (params func_info)))), s)
           else match first_mismatch 0 arg_types (params func_info) with
                | Some i =>
                    (Raise (ValueError (ArgumentTypeMismatch (S i) func_name)), s)
                | None => (Ok (return_type func_info), s)
                end
       end.

(** ** SemanticAnalyzer: the tree walk *)

(** [node[key]]: a missing key is a [KeyError]. *)
Definition field (key : string) (d : dict) : M pyval :=
  match get key d with
  | Some v => ret v
  | None => raise (KeyError key)
  end.

(** [node[key]] where the value is a name. *)
Definition field_str (key : string) (d : dict) : M string :=
  match get key d with
  | Some (PStr s) => ret s
  | Some _ => raise (IllFormed key)
  | None => raise (KeyError key)
  end.

(** [node.get('array_size')], with [None] for a missing key and for a
    key that holds [None]. *)
Definition field_size (d : dict) : M (option pyval) :=
  match get "array_size" d with
  | None | Some PNone => ret None
  | Some size => ret (Some size)
  end.

(** [node[key]] handed to what is done with it.  It is [field] followed by
    [k] (lemma [item_field]); written as a walk along the items so that the
    value [k] receives is visibly a part of the node. *)
Definition item {A} (key : string) (k : pyval → M A) : dict → M A :=
  fix find d :=
    match d with
    | [] => raise (KeyError key)
    | (k', v) :: d' => if String.eqb k' key then k v else find d'
    end.

(** [for x in xs: r = f(x); results.append(r)] *)
Definition for_each {A} (f : pyval → M A) : list pyval → M (list A) :=
  fix go xs :=
    match xs with
    | [] => ret []
    | x :: xs' =>
        let* r := f x in
        let* rs := go xs' in
        ret (r :: rs)
    end.

(** The type of a literal, from the class of its value. *)
Definition literal_type (value : pyval) : option SymbolType :=
  match value with
  | PBool _ => Some BOOL
  | PInt _ => Some INT
  | PFloat _ => Some FLOAT
  | PStr s => if (len s =? 1)%nat then Some CHAR else None
  | _ => None
  end.

Definition none2 : pyval * pytype := (PNone, None).

Fixpoint generate_code (node : pyval) {struct node} : M (pyval * pytype) :=
  match node with
  | PDict d =>
    let* tag := field "type" d in
    if str_eq tag "declaration" then
      let* array_size := field_size d in
      let* data_type := field "data_type" d in
      let* var_name := field_str "var_name" d in
      let const := match get "is_const" d with
                   | Some v => truthy v
                   | None => false
                   end in
      let* _ := analyze_declaration data_type var_name const array_size in
      let* _ := match array_size with
                | Some size => gen_emit (PStr "alloc") (PStr var_name) size PNone
                | None => ret ()
                end in
      ret none2
    else if str_eq tag "assignment" then
      if has_key "index" d then
        item "index" (λ index,
          let* (index_result, index_type) := generate_code index in
          let* var_name := field_str "var_name" d in
          let* array_type := analyze_array_access var_name index_type in
          item "expr" (λ expr,
            let* (expr_result, expr_type) := generate_code expr in
            if negb (bool_decide (Some (Sym array_type) = expr_type)) then
              raise (ValueError (ElementTypeMismatch var_name))
            else
              let* temp := gen_temp in
              let* _ := gen_emit (PStr "arraystore") (PStr var_name)
                                 index_result expr_result in
              ret none2) d) d
      else
        item "expr" (λ expr,
          let* (expr_result, expr_type) := generate_code expr in
          let* var_name := field_str "var_name" d in
          let* result_type := analyze_assignment var_name expr_type in
          if bool_decide (result_type = Sym FLOAT) && type_is expr_type INT then
            let* temp := gen_temp in
            let* _ := gen_emit (PStr "inttofloat") expr_result PNone (PStr temp) in
            let* _ := gen_emit (PStr "=") (PStr temp) PNone (PStr var_name) in
            ret none2
          else
            let* _ := gen_emit (PStr "=") expr_result PNone (PStr var_name) in
            ret none2) d
    else if str_eq tag "binary_op" then
      item "left" (λ left,
        let* (left_result, left_type) := generate_code left in
        item "right" (λ right,
          let* (right_result, right_type) := generate_code right in
          let* op := field "op" d in
          let* result_type := analyze_binary_op left_type right_type op in
          let* temp := gen_temp in
          let* _ := gen_emit op left_result right_result (PStr temp) in
          ret (PStr temp, Some result_type)) d) d
    else if str_eq tag "unary_op" then
      item "operand" (λ operand,
        let* (operand_result, operand_type) := generate_code operand in
        let* op := field "op" d in
        let* result_type := analyze_unary_op operand_type op in
        let* temp := gen_temp in
        let* _ := gen_emit op operand_result PNone (PStr temp) in
        ret (PStr temp, result_type)) d
    else if str_eq tag "array_access" then
      let* array_name := field_str "array_name" d in
      let* array_info := scope_check array_name in
      item "index" (λ index,
        let* (index_result, index_type) := generate_code index in
        let* element_type := analyze_array_access array_name index_type in
        let* temp := gen_temp in
        let* _ := gen_emit (PStr "arrayload") (PStr array_name)
                           index_result (PStr temp) in
        ret (PStr temp, Some (Sym element_type))) d
    else if str_eq tag "if" then
      item "condition" (λ condition,
        let* (cond_result, cond_type) := generate_code condition in
        if negb (type_is cond_type BOOL) then
          raise (ValueError IfConditionNotBoolean)
        else
          let* else_label := gen_label in
          let* end_label := gen_label in
          let* _ := gen_emit (PStr "ifnot") cond_result PNone (PStr else_label) in
          item "then_block" (λ then_block,
            let* _ := generate_code then_block in
            let* _ := if has_key "else_block" d
                      then gen_emit (PStr "goto") PNone PNone (PStr end_label)
                      else ret () in
            let* _ := gen_emit (PStr "label") (PStr else_label) PNone PNone in
            if has_key "else_block" d then
              item "else_block" (λ else_block,
                let* _ := generate_code else_block in
                let* _ := gen_emit (PStr "label") (PStr end_label) PNone PNone in
                ret none2) d
            else ret none2) d) d
    else if str_eq tag "while" then
      let* start_label := gen_label in
      let* end_label := gen_label in
      let* _ := gen_emit (PStr "label") (PStr start_label) PNone PNone in
      item "condition" (λ condition,
        let* (cond_result, cond_type) := generate_code condition in
        if negb (type_is cond_type BOOL) then
          raise (ValueError WhileConditionNotBoolean)
        else
          let* _ := gen_emit (PStr "ifnot") cond_result PNone (PStr end_label) in
          item "body" (λ body,
            let* _ := generate_code body in
            let* _ := gen_emit (PStr "goto") PNone PNone (PStr start_label) in
            let* _ := gen_emit (PStr "label") (PStr end_label) PNone PNone in
            ret none2) d) d
    else if str_eq tag "function_call" then
      item "args" (λ args,
        match args with
        | PList xs =>
            let* rs := for_each generate_code xs in
            let arg_results := map fst rs in
            let arg_types := map snd rs in
            let* func_name := field_str "func_name" d in
            let* return_type := analyze_function_call func_name arg_types in
            if negb (bool_decide (return_type = Sym INT)) then
              let* _ := gen_emit (PStr "call") (PStr func_name)
                                 (PList arg_results) PNone in
              ret none2
            else
              let* temp := gen_temp in
              let* _ := gen_emit (PStr "call") (PStr func_name)
                                 (PList arg_results) (PStr temp) in
              ret (PStr temp, Some return_type)
        | _ => raise (IllFormed "args")
        end) d
    else if str_eq tag "variable" then
      let* name := field_str "name" d in
      let* var_info := scope_check name in
      ret (PStr name, Some (type var_info))
    else if str_eq tag "literal" then
      let* value := field "value" d in
      match literal_type value with
      | Some t => ret (value, Some (Sym t))
      | None => raise (ValueError (InvalidLiteral value))
      end
    else ret none2
  | _ => raise (PyTypeError "node is not subscriptable")
  end.

(** ** The parser of [sintax_analyzer.py] *)

Module Sintax.

Inductive TokenType :=
| INTEGER | FLOAT | IDENTIFIER | PLUS | MINUS | MUL | DIV | ASSIGN
| LPAREN | RPAREN | LBRACE | RBRACE | SEMICOLON | LET | EOF.

#[global] Instance TokenType_eq_dec : EqDecision TokenType.
Proof. solve_decision. Defined.

Record Token := mkToken {
  type : TokenType;
  value : pyval;
  line : pyval;
  column : pyval
}.

(** [Token(TokenType.EOF)] *)
Definition eof_token : Token := mkToken EOF PNone PNone PNone.

#[warnings="-register-all"] Inductive ASTNode :=
| Program (statements : list ASTNode)
| VarDecl (identifier : pyval) (initializer : ASTNode)
| Assignment (identifier : pyval) (value : ASTNode)
| BinOp (left : ASTNode) (op : Token) (right : ASTNode)
| Num (token : Token)
| Var (token : Token).

Record Parser := mkParser {
  tokens : list Token;
  current_token : Token;
  pos : nat
}.

(** What [Parser.error] raises: the position of the current token, what
    was expected and the kind that was found.  [IndexError] is
    [tokens[0]] on an empty list. *)
Inductive error :=
| SyntaxError (line column : pyval) (expected : string) (got : TokenType)
| IndexError.

(** The recursion of the grammar is bounded by a fuel: one unit per call
    and per loop turn. *)
Inductive result (A : Type) :=
| Parsed (a : A) (p : Parser)
| Failed (e : error)
| OutOfFuel.
Arguments Parsed {A} a p.
Arguments Failed {A} e.
Arguments OutOfFuel {A}.

Definition P (A : Type) : Type := Parser → result A.

Definition pret {A} (a : A) : P A := λ p, Parsed a p.

Definition pbind {A B} (m : P A) (k : A → P B) : P B :=
  λ p, match m p with
       | Parsed a p' => k a p'
       | Failed e => Failed e
       | OutOfFuel => OutOfFuel
       end.

Notation "'do*' x ':=' m 'in' k" := (pbind m (λ x, k))
  (at level 10, x pattern, m at level 100, k at level 200, only parsing).

Definition name (t : TokenType) : string :=
  match t with
  | INTEGER => "INTEGER" | FLOAT => "FLOAT" | IDENTIFIER => "IDENTIFIER"
  | PLUS => "PLUS" | MINUS => "MINUS" | MUL => "MUL" | DIV => "DIV"
  | ASSIGN => "ASSIGN" | LPAREN => "LPAREN" | RPAREN => "RPAREN"
  | LBRACE => "LBRACE" | RBRACE => "RBRACE" | SEMICOLON => "SEMICOLON"
  | LET => "LET" | EOF => "EOF"
  end.

Definition error_expected {A} (expected : string) : P A :=
  λ p, Failed (SyntaxError (line (current_token p)) (column (current_token p))
                           expected (type (current_token p))).

Definition eat (token_type : TokenType) : P unit :=
  λ p, if bool_decide (type (current_token p) = token_type) then
         let pos' := (pos p + 1)%nat in
         Parsed () (mkParser (tokens p)
                             (match tokens p !! pos' with
                              | Some t => t
                              | None => eof_token
                              end)
                             pos')
       else error_expected (name token_type) p.

Definition cur : P Token := λ p, Parsed (current_token p) p.

Definition is_in (t : TokenType) (ts : list TokenType) : bool :=
  bool_decide (t ∈ ts).

Fixpoint factor (fuel : nat) : P ASTNode :=
  match fuel with
  | O => λ _, OutOfFuel
  | S n =>
      do* token := cur in
      if bool_decide (type token = INTEGER) || bool_decide (type token = FLOAT)
      then
        do* _ := eat (type token) in
        pret (Num token)
      else if bool_decide (type token = IDENTIFIER) then
        do* _ := eat IDENTIFIER in
        pret (Var token)
      else if bool_decide (type token = LPAREN) then
        do* _ := eat LPAREN in
        do* node := expr n in
        do* _ := eat RPAREN in
        pret node
      else error_expected "number, identifier, or '('"
  end

with term (fuel : nat) : P ASTNode :=
  match fuel with
  | O => λ _, OutOfFuel
  | S n =>
      do* node := factor n in
      term_loop n node
  end

(** [while self.current_token.type in (MUL, DIV): ...] *)
with term_loop (fuel : nat) (node : ASTNode) : P ASTNode :=
  match fuel with
  | O => λ _, OutOfFuel
  | S n =>
      do* token := cur in
      if is_in (type token) [MUL; DIV] then
        do* _ := eat (type token) in
        do* rhs := factor n in
        term_loop n (BinOp node token rhs)
      else pret node
  end

with expr (fuel : nat) : P ASTNode :=
  match fuel with
  | O => λ _, OutOfFuel
  | S n =>
      do* node := term n in
      expr_loop n node
  end

(** [while self.current_token.type in (PLUS, MINUS): ...] *)
with expr_loop (fuel : nat) (node : ASTNode) : P ASTNode :=
  match fuel with
  | O => λ _, OutOfFuel
  | S n =>
      do* token := cur in
      if is_in (type token) [PLUS; MINUS] then
        do* _ := eat (type token) in
        do* rhs := term n in
        expr_loop n (BinOp node token rhs)
      else pret node
  end.

Definition assignment (fuel : nat) : P ASTNode :=
  do* token := cur in
  let identifier := value token in
  do* _ := eat IDENTIFIER in
  do* _ := eat ASSIGN in
  do* v := expr fuel in
  pret (Assignment identifier v).

Definition var_decl (fuel : nat) : P ASTNode :=
  do* _ := eat LET in
  do* token := cur in
  let identifier := value token in
  do* _ := eat IDENTIFIER in
  do* _ := eat ASSIGN in
  do* initializer := expr fuel in
  pret (VarDecl identifier initializer).

Definition statement (fuel : nat) : P ASTNode :=
  λ p, if bool_decide (type (current_token p) = LET) then var_decl fuel p
       else if bool_decide (type (current_token p) = IDENTIFIER)
               && bool_decide (pos p + 1 < length (tokens p))%nat
               && match tokens p !! (pos p + 1)%nat with
                  | Some t => bool_decide (type t = ASSIGN)
                  | None => false
                  end
       then assignment fuel p
       else expr fuel p.

(** The loop of [parse]; [statements] is the list built so far. *)
Fixpoint parse_loop (fuel : nat) (statements : list ASTNode)
  : P (list ASTNode) :=
  match fuel with
  | O => λ _, OutOfFuel
  | S n =>
      do* token := cur in
      if negb (bool_decide (type token = EOF)) then
        do* st := statement n in
        do* token' := cur in
        do* _ := if bool_decide (type token' = SEMICOLON)
                 then eat SEMICOLON else pret () in
        parse_loop n (statements ++ [st])
      else pret statements
  end.

(** [Parser(tokens).parse()] *)
Definition parse (fuel : nat) (toks : list Token) : result ASTNode :=
  match toks with
  | [] => Failed IndexError
  | t :: _ =>
      match parse_loop fuel [] (mkParser toks t 0) with
      | Parsed statements p => Parsed (Program statements) p
      | Failed e => Failed e
      | OutOfFuel => OutOfFuel
      end
  end.

(** The parser as [Parser.__init__] and [eat] leave it at position [i] of
    [toks]: the current token is [toks[i]], or [Token(EOF)] past the end. *)
Definition tok_at (toks : list Token) (i : nat) : Token :=
  match toks !! i with Some t => t | None => eof_token end.

Definition at_pos (toks : list Token) (i : nat) : Parser :=
  mkParser toks (tok_at toks i) i.

(** A number or an identifier, and the leaf [factor] makes of it. *)
Definition is_atom (t : Token) : bool :=
  is_in (type t) [INTEGER; FLOAT; IDENTIFIER].

Definition leaf (t : Token) : ASTNode :=
  if bool_decide (type t = IDENTIFIER) then Var t else Num t.

(** The tokens [op1 a1 op2 a2 ...] of a chain of operators and operands,
    and the tree that nests the chain to the left:
    [((first op1 a1) op2 a2) ...]. *)
Definition flat (chain : list (Token * Token)) : list Token :=
  flat_map (λ '(op, a), [op; a]) chain.

Definition left_assoc (first : ASTNode) (chain : list (Token * Token))
  : ASTNode :=
  fold_left (λ acc '(op, a), BinOp acc op (leaf a)) chain first.

(** Less fuel gives the same answer or runs out. *)
Definition fuel_le {A} (r1 r2 : result A) : Prop :=
  r1 = OutOfFuel ∨ r1 = r2.

Definition token (t : TokenType) (v : pyval) : Token := mkToken t v PNone PNone.

(** The tokens of [2 + 3 * 4] and of [(2 + 3) * 4], as the tests give
    them, end-of-input appended. *)
Definition tokens_2_plus_3_times_4 : list Token :=
  [token INTEGER (PInt 2); token PLUS PNone; token INTEGER (PInt 3);
   token MUL PNone; token INTEGER (PInt 4); token EOF PNone].

Definition tokens_paren_2_plus_3_times_4 : list Token :=
  [token LPAREN PNone; token INTEGER (PInt 2); token PLUS PNone;
   token INTEGER (PInt 3); token RPAREN PNone; token MUL PNone;
   token INTEGER (PInt 4); token EOF PNone].

Definition tokens_1_minus_2_minus_3 : list Token :=
  [token INTEGER (PInt 1); token MINUS PNone; token INTEGER (PInt 2);
   token MINUS PNone; token INTEGER (PInt 3); token EOF PNone].

(** [1 - 2 - 3 * 4]: the last operand of the chain of [-] is a product. *)
Definition tokens_1_minus_2_minus_3_times_4 : list Token :=
  [token INTEGER (PInt 1); token MINUS PNone; token INTEGER (PInt 2);
   token MINUS PNone; token INTEGER (PInt 3); token MUL PNone;
   token INTEGER (PInt 4); token EOF PNone].

(** A chain of operators and operands as a loop of the parser reads it
    from position [j] of [toks]: each operator is the token at hand and
    of one of the kinds [ops], each operand is whatever [operand] parses
    from the token after the operator, of any shape and length, and the
    chain ends at position [j']. *)
Fixpoint chain_at (operand : P ASTNode) (ops : list TokenType)
    (toks : list Token) (j : nat) (chain : list (Token * ASTNode)) (j' : nat)
  : Prop :=
  match chain with
  | [] => j' = j
  | (op, a) :: chain' =>
      tok_at toks j = op ∧ is_in (type op) ops = true
      ∧ ∃ j1, operand (at_pos toks (j + 1)) = Parsed a (at_pos toks j1)
              ∧ chain_at operand ops toks j1 chain' j'
  end.

(** The tree that nests a chain to the left:
    [((first op1 a1) op2 a2) ...]. *)
Definition nest_left (first : ASTNode) (chain : list (Token * ASTNode))
  : ASTNode :=
  fold_left (λ acc '(op, a), BinOp acc op a) chain first.

(** [pre], then the operand [a0], the chain, and [post]. *)
Definition around (pre : list Token) (a0 : Token) (chain : list (Token * Token))
    (post : list Token) : list Token :=
  pre ++ a0 :: flat chain ++ post.

End Sintax.

(** ** Vocabulary of the properties *)

(** A relation between the analyzer before and after a run holds of a
    method body when it holds of every run of it, returning or raising. *)
Definition respects (R : relation SemanticAnalyzer) {A} (m : M A) : Prop :=
  ∀ s, R s (m s).2.

(** What the induction on a node carries: its walk respects [R], and so
    do the walks of the elements of a list. *)
Definition walks_respect (R : relation SemanticAnalyzer) (v : pyval) : Prop :=
  respects R (generate_code v)
  ∧ match v with
    | PList xs => Forall (λ x, respects R (generate_code x)) xs
    | _ => True
    end.

(** A run that is a session of the generator and leaves the function
    table alone. *)
Definition traced (s s' : SemanticAnalyzer) : Prop :=
  functions s' = functions s
  ∧ ∃ calls, code_gen s' = (session calls (code_gen s)).2.

(** The instructions a run appended: the log after it, without the log
    before it. *)
Definition appended (s s' : SemanticAnalyzer) : list instr :=
  drop (length (code (code_gen s))) (code (code_gen s')).

Definition handled_tags : list string :=
  ["declaration"; "assignment"; "binary_op"; "unary_op"; "array_access";
   "if"; "while"; "function_call"; "variable"; "literal"].

(** The tables of a scope and of its ancestors, innermost first. *)
Fixpoint chain (self : SymbolTable) : list (gmap string entry) :=
  match self with
  | mkSymbolTable t p =>
      t :: match p with Some up => chain up | None => [] end
  end.

(** The binding of [name] in the first table of the list that has one. *)
Fixpoint innermost (name : string) (tables : list (gmap string entry))
  : option entry :=
  match tables with
  | [] => None
  | t :: tables' =>
      match t !! name with
      | Some e => Some e
      | None => innermost name tables'
      end
  end.

(** ** Nodes and analyzers of the examples *)

Definition literal (v : pyval) : pyval :=
  PDict [("type", PStr "literal"); ("value", v)].

Definition binary (op : string) (l r : pyval) : pyval :=
  PDict [("type", PStr "binary_op"); ("op", PStr op); ("left", l); ("right", r)].

Definition variable (x : string) : pyval :=
  PDict [("type", PStr "variable"); ("name", PStr x)].

Definition block (statements : list pyval) : pyval :=
  PDict [("type", PStr "block"); ("statements", PList statements)].

Definition while_ (condition body : pyval) : dict :=
  [("type", PStr "while"); ("condition", condition); ("body", body)].

Definition assign (name : string) (expr : pyval) : dict :=
  [("type", PStr "assignment"); ("var_name", PStr name); ("expr", expr)].

Definition assign_at (name : string) (index expr : pyval) : dict :=
  [("type", PStr "assignment"); ("var_name", PStr name);
   ("index", index); ("expr", expr)].

Definition call (f : string) (args : list pyval) : dict :=
  [("type", PStr "function_call"); ("func_name", PStr f); ("args", PList args)].

(** The scopes of [test_nested_scope]: [x] is INT in the outer one, the
    inner one is empty. *)
Definition outer_scope : SymbolTable :=
  mkSymbolTable {["x" := Entry (Sym INT) false]} None.

Definition inner_scope : SymbolTable := mkSymbolTable ∅ (Some outer_scope).

(** A FLOAT variable [y] and an INT variable [x], declared. *)
Definition scope_x_y : SemanticAnalyzer :=
  mkAnalyzer
    (mkSymbolTable {["x" := Entry (Sym INT) false; "y" := Entry (Sym FLOAT) false]}
                   None)
    new_gen ∅.

(** An array of five FLOATs, declared. *)
Definition scope_arr : SemanticAnalyzer :=
  mkAnalyzer (mkSymbolTable {["arr" := Entry (ArrayType FLOAT 5) false]} None)
             new_gen ∅.

(** A const INT [MAX], declared. *)
Definition scope_MAX : SemanticAnalyzer :=
  mkAnalyzer (mkSymbolTable {["MAX" := Entry (Sym INT) true]} None) new_gen ∅.

(** The registry of [test_invalid_function_call], and one function more
    that returns INT. *)
Definition with_pow : SemanticAnalyzer :=
  mkAnalyzer (mkSymbolTable ∅ None) new_gen
    {["pow" := FuncInfo (Sym FLOAT) [Sym FLOAT; Sym FLOAT];
      "factorial" := FuncInfo (Sym INT) [Sym INT]]}.

(** The loop of [test_while_loop]: [while (1 < 2) { }]. *)
Definition while_1_lt_2 : pyval :=
  PDict (while_ (binary "<" (literal (PInt 1)) (literal (PInt 2))) (block [])).

Definition MAX_gets_1_plus_2 : pyval :=
  PDict (assign "MAX" (binary "+" (literal (PInt 1)) (literal (PInt 2)))).

(** The node of [test_if_statement]: [if (x > 0) { x = 1; }]. *)
Definition if_x_gt_0_then_x_gets_1 : pyval :=
  PDict [("type", PStr "if");
         ("condition", binary ">" (variable "x") (literal (PInt 0)));
         ("then_block", block [PDict (assign "x" (literal (PInt 1)))])].

(** ** More vocabulary: scopes, leaves, rejected calls *)


(** [node.get('is_const', False)] as the truth value that is stored. *)
Definition const_flag (d : dict) : bool :=
  match get "is_const" d with
  | Some v => truthy v
  | None => false
  end.

(** The analyzer with [name] bound in its current scope. *)
Definition with_symbol (s : SemanticAnalyzer) (name : string) (e : entry)
  : SemanticAnalyzer :=
  mkAnalyzer (mkSymbolTable (<[name := e]> (table (current_scope s)))
                            (parent (current_scope s)))
             (code_gen s) (functions s).

Definition declare (data_type name : string) (more : dict) : dict :=
  [("type", PStr "declaration"); ("data_type", PStr data_type);
   ("var_name", PStr name)] ++ more.

Definition arithmetic_ops : list string := ["+"; "-"; "*"; "/"].
Definition relational_ops : list string := ["<"; ">"; "<="; ">="; "=="; "!="].
Definition logical_ops : list string := ["&&"; "||"].

Definition unary (op : string) (operand : pyval) : dict :=
  [("type", PStr "unary_op"); ("op", PStr op); ("operand", operand)].

Definition array_access (name : string) (index : pyval) : dict :=
  [("type", PStr "array_access"); ("array_name", PStr name); ("index", index)].

Definition if_ (condition then_block : pyval) (more : dict) : dict :=
  [("type", PStr "if"); ("condition", condition); ("then_block", then_block)]
  ++ more.

(** An INT array [a] of four elements and an INT [x], declared. *)
Definition scope_a_x : SemanticAnalyzer :=
  mkAnalyzer
    (mkSymbolTable {["a" := Entry (ArrayType INT 4) false;
                     "x" := Entry (Sym INT) false]} None)
    new_gen ∅.

(** ** Vocabulary of the properties of the parser *)

Module SintaxVocabulary.
Import Sintax.

(** A result that is a parse leaves the parser on the same tokens, at a
    position from [lo] on and not past their end. *)
Definition lands {A} (toks : list Token) (lo : nat) (r : result A) : Prop :=
  match r with
  | Parsed _ p' => ∃ j, p' = at_pos toks j ∧ (lo ≤ j ≤ length toks)%nat
  | _ => True
  end.

(** Whether a token of kind [got] is what the text [expected] of an error
    message asks for. *)
Definition wanted (expected : string) (got : TokenType) : bool :=
  if String.eqb expected "number, identifier, or '('"
  then is_in got [INTEGER; FLOAT; IDENTIFIER; LPAREN]
  else String.eqb (name got) expected.

(** A result that is an error is a syntax error raised at a token from
    position [lo] on (the end-of-input token past the end): it carries
    the line and column of that token, its kind, and one of the texts
    [allowed], which that kind does not meet. *)
Definition complains {A} (toks : list Token) (lo : nat) (allowed : list string)
    (r : result A) : Prop :=
  match r with
  | Failed e =>
      ∃ j expected,
        (lo ≤ j)%nat
        ∧ e = SyntaxError (line (tok_at toks j)) (column (tok_at toks j))
                          expected (type (tok_at toks j))
        ∧ expected ∈ allowed
        ∧ wanted expected (type (tok_at toks j)) = false
  | _ => True
  end.

Definition expression_errors : list string :=
  ["number, identifier, or '('"; "RPAREN"].

Definition statement_errors : list string :=
  ["number, identifier, or '('"; "RPAREN"; "IDENTIFIER"; "ASSIGN"].

(** The tokens of [let x = 2 + 3; x = x * 4], the stream of the module's
    own demonstration. *)
Definition tokens_of_the_demonstration : list Token :=
  [mkToken LET PNone (PInt 1) (PInt 1);
   mkToken IDENTIFIER (PStr "x") (PInt 1) (PInt 5);
   mkToken ASSIGN PNone (PInt 1) (PInt 7);
   mkToken INTEGER (PInt 2) (PInt 1) (PInt 9);
   mkToken PLUS PNone (PInt 1) (PInt 11);
   mkToken INTEGER (PInt 3) (PInt 1) (PInt 13);
   mkToken SEMICOLON PNone (PInt 1) (PInt 14);
   mkToken IDENTIFIER (PStr "x") (PInt 1) (PInt 16);
   mkToken ASSIGN PNone (PInt 1) (PInt 18);
   mkToken IDENTIFIER (PStr "x") (PInt 1) (PInt 20);
   mkToken MUL PNone (PInt 1) (PInt 22);
   mkToken INTEGER (PInt 4) (PInt 1) (PInt 24);
   mkToken EOF PNone (PInt 1) (PInt 25)].

(** [1 +] and end of input: the stream of [test_syntax_error_missing_operand]. *)
Definition tokens_1_plus : list Token :=
  [token INTEGER (PInt 1); token PLUS PNone; token EOF PNone].

End SintaxVocabulary.

(** * Properties *)

(** ** Control: sequencing *)

Lemma bind_ok {A B} (m : M A) (k : A → M B) s a s' :
  m s = (Ok a, s') → bind m k s = k a s'.
Proof. unfold bind. intros ->. reflexivity. Qed.

Lemma bind_raise {A B} (m : M A) (k : A → M B) s e s' :
  m s = (Raise e, s') → bind m k s = (Raise e, s').
Proof. unfold bind. intros ->. reflexivity. Qed.

Lemma item_field {A} key (k : pyval → M A) d :
  item key k d = bind (field key d) k.
Proof.
  induction d as [|[k' v] d IH]; [reflexivity|].
  unfold field in *. simpl. destruct (String.eqb k' key); [reflexivity|].
  exact IH.
Qed.

Lemma item_get {A} key (k : pyval → M A) d v :
  get key d = Some v → item key k d = k v.
Proof. intros H. rewrite item_field. unfold field. rewrite H. reflexivity. Qed.

(** Induction on values, through lists and dictionaries. *)
Lemma pyval_nested_ind (Q : pyval → Prop) :
  Q PNone → (∀ b, Q (PBool b)) → (∀ z, Q (PInt z)) → (∀ q, Q (PFloat q)) →
  (∀ s, Q (PStr s)) →
  (∀ xs, Forall Q xs → Q (PList xs)) →
  (∀ d, Forall (λ kv, Q kv.2) d → Q (PDict d)) →
  ∀ v, Q v.
Proof.
  intros HN HB HI HF HS HL HD.
  fix IH 1. intros [ |b|z|q|s|xs|d].
  - exact HN.
  - apply HB.
  - apply HI.
  - apply HF.
  - apply HS.
  - apply HL. revert xs. fix IHxs 1. intros [|x xs]; constructor.
    + apply IH.
    + apply IHxs.
  - apply HD. revert d. fix IHd 1. intros [|[k v] d]; constructor.
    + apply IH.
    + apply IHd.
Qed.

(** ** The generator: sessions *)

Lemma session_app calls1 calls2 g :
  session (calls1 ++ calls2) g =
  let '(log1, g1) := session calls1 g in
  let '(log2, g2) := session calls2 g1 in (log1 ++ log2, g2).
Proof.
  revert g. induction calls1 as [|c calls1 IH]; intros g; simpl.
  - destruct (session calls2 g). reflexivity.
  - destruct c as [ | |[[[op a1] a2] r]]; simpl; rewrite IH;
      repeat (match goal with |- context [session ?c ?g] =>
                destruct (session c g) end); reflexivity.
Qed.

Lemma session_state calls g :
  code (session calls g).2 = code g ++ emitted calls
  ∧ temp_count (session calls g).2 = (temp_count g + count_temps calls)%nat
  ∧ label_count (session calls g).2 = (label_count g + count_labels calls)%nat.
Proof.
  revert g. induction calls as [|c calls IH]; intros g; simpl.
  - rewrite app_nil_r. repeat split; lia.
  - destruct c as [ | |[[[op a1] a2] r]]; simpl.
    + specialize (IH (new_temp g).2). destruct (session calls _).
      simpl in *. destruct IH as (-> & -> & ->). repeat split; lia.
    + specialize (IH (new_label g).2). destruct (session calls _).
      simpl in *. destruct IH as (-> & -> & ->). repeat split; lia.
    + specialize (IH (emit op a1 a2 r g)). simpl in IH.
      rewrite <- app_assoc in IH. exact IH.
Qed.

Lemma session_log calls g :
  temps_of (session calls g).1 = map temp_name (seq (temp_count g) (count_temps calls))
  ∧ labels_of (session calls g).1 = map label_name (seq (label_count g) (count_labels calls)).
Proof.
  revert g. induction calls as [|c calls IH]; intros g; simpl; [done|].
  destruct c as [ | |[[[op a1] a2] r]]; simpl.
  - specialize (IH (new_temp g).2). destruct (session calls _). simpl in *.
    replace (S (temp_count g)) with (temp_count g + 1)%nat by lia.
    destruct IH as [-> ->]. done.
  - specialize (IH (new_label g).2). destruct (session calls _). simpl in *.
    replace (S (label_count g)) with (label_count g + 1)%nat by lia.
    destruct IH as [-> ->]. done.
  - apply (IH (emit op a1 a2 r g)).
Qed.

Lemma temp_name_inj : Inj (=) (=) temp_name.
Proof.
  intros m n H. apply (inj pretty).
  change (String "t"%char (pretty m) = String "t"%char (pretty n)) in H. congruence.
Qed.

Lemma label_name_inj : Inj (=) (=) label_name.
Proof.
  intros m n H. apply (inj pretty).
  change (String "L"%char (pretty m) = String "L"%char (pretty n)) in H. congruence.
Qed.

(** ** What a walk may do to the analyzer

    A relation between the analyzer before and after that is closed under
    doing nothing and under composition, and that holds of the four
    primitive updates, holds of every run of [generate_code], returning
    or raising. *)
Create HintDb respects.

Section Respects.
Variable R : relation SemanticAnalyzer.
Hypothesis R_refl : ∀ s, R s s.
Hypothesis R_trans : ∀ s1 s2 s3, R s1 s2 → R s2 s3 → R s1 s3.
Hypothesis R_temp : ∀ s, R s (gen_temp s).2.
Hypothesis R_label : ∀ s, R s (gen_label s).2.
Hypothesis R_emit : ∀ op a1 a2 r s, R s (gen_emit op a1 a2 r s).2.
Hypothesis R_add : ∀ name t c s, R s (scope_add name t c s).2.

Lemma respects_ret {A} (a : A) : respects R (ret a).
Proof. intros s. apply R_refl. Qed.

Lemma respects_raise {A} e : respects R (@raise A e).
Proof. intros s. apply R_refl. Qed.

Lemma respects_bind {A B} (m : M A) (k : A → M B) :
  respects R m → (∀ a, respects R (k a)) → respects R (bind m k).
Proof.
  intros Hm Hk s. unfold bind. specialize (Hm s).
  destruct (m s) as [[a|e] s']; simpl in *; [|done].
  eapply R_trans; [exact Hm | apply Hk].
Qed.

Lemma respects_reraise {A} wrap (m : M A) :
  respects R m → respects R (reraise wrap m).
Proof.
  intros Hm s. unfold reraise. specialize (Hm s).
  destruct (m s) as [[a|[ | | | ]] s']; exact Hm.
Qed.

Lemma respects_field key d : respects R (field key d).
Proof. unfold field. destruct (get key d); [apply respects_ret | apply respects_raise]. Qed.

Lemma respects_field_str key d : respects R (field_str key d).
Proof.
  unfold field_str.
  destruct (get key d) as [[]|]; first [apply respects_ret | apply respects_raise].
Qed.

Lemma respects_field_size d : respects R (field_size d).
Proof.
  unfold field_size.
  destruct (get "array_size" d) as [[]|]; first [apply respects_ret | apply respects_raise].
Qed.

Lemma respects_scope_check name : respects R (scope_check name).
Proof. intros s. apply R_refl. Qed.

Lemma respects_item {A} (Q : pyval → Prop) key (k : pyval → M A) d :
  Forall (λ kv, Q kv.2) d → (∀ v, Q v → respects R (k v)) →
  respects R (item key k d).
Proof.
  intros Hd Hk. induction Hd as [|[k' v] d Hv Hd IH]; simpl.
  - apply respects_raise.
  - destruct (String.eqb k' key); [apply Hk, Hv | exact IH].
Qed.

Lemma respects_for_each {A} (f : pyval → M A) xs :
  Forall (λ x, respects R (f x)) xs → respects R (for_each f xs).
Proof.
  induction 1 as [|x xs Hx Hxs IH]; simpl; [apply respects_ret|].
  apply respects_bind; [exact Hx|]. intros r.
  apply respects_bind; [exact IH|]. intros rs. apply respects_ret.
Qed.

#[local] Hint Resolve respects_ret respects_raise respects_field respects_field_str
  respects_field_size respects_scope_check : respects.

Ltac respects_step :=
  match goal with
  | |- respects R (bind _ _) => apply respects_bind; [|intros ?]
  | |- respects R (reraise _ _) => apply respects_reraise
  | |- respects R (if ?b then _ else _) => destruct b
  | |- respects R (match ?x with _ => _ end) => destruct x
  | |- respects R (λ s, _) => intros ?; simpl
  | |- respects R gen_temp => exact R_temp
  | |- respects R gen_label => exact R_label
  | |- respects R (gen_emit _ _ _ _) => exact (R_emit _ _ _ _)
  | |- respects R (scope_add _ _ _) => exact (R_add _ _ _)
  | |- _ => solve [auto with respects]
  end.

Lemma respects_analyze_declaration t x c n :
  respects R (analyze_declaration t x c n).
Proof. unfold analyze_declaration. repeat respects_step. Qed.

Lemma respects_analyze_assignment x t : respects R (analyze_assignment x t).
Proof. unfold analyze_assignment. repeat respects_step. Qed.

Lemma respects_analyze_binary_op l r op : respects R (analyze_binary_op l r op).
Proof. unfold analyze_binary_op. repeat respects_step. Qed.

Lemma respects_analyze_unary_op t op : respects R (analyze_unary_op t op).
Proof. unfold analyze_unary_op. repeat respects_step. Qed.

Lemma respects_analyze_array_access x t : respects R (analyze_array_access x t).
Proof. unfold analyze_array_access. repeat respects_step. Qed.

Lemma respects_analyze_function_call f ts :
  respects R (analyze_function_call f ts).
Proof.
  intros s. unfold analyze_function_call.
  destruct (functions s !! f); [|apply R_refl].
  destruct (negb _); [apply R_refl|].
  destruct (first_mismatch _ _ _); apply R_refl.
Qed.

#[local] Hint Resolve respects_analyze_declaration respects_analyze_assignment
  respects_analyze_binary_op respects_analyze_unary_op
  respects_analyze_array_access respects_analyze_function_call : respects.

Lemma generate_code_walks v : walks_respect R v.
Proof.
  induction v as [ | | | | |xs IH|d IH] using pyval_nested_ind;
    try (split; [apply respects_raise | exact I]).
  - split; [apply respects_raise|].
    eapply Forall_impl; [exact IH|]. by intros x [Hx _].
  - split; [|exact I]. cbn [generate_code].
    repeat first
      [ apply (respects_item (walks_respect R)); [exact IH | intros ? [? ?]]
      | apply respects_for_each; assumption
      | assumption
      | respects_step ].
Qed.

Theorem generate_code_respects node : respects R (generate_code node).
Proof. apply generate_code_walks. Qed.

(** The driver's loop [for node in ast: analyzer.generate_code(node)]. *)
Theorem program_respects nodes : respects R (for_each generate_code nodes).
Proof.
  apply respects_for_each, Forall_forall. intros node _.
  apply generate_code_respects.
Qed.
End Respects.

(** ** Every walk is a session of the generator *)

Lemma traced_refl s : traced s s.
Proof. split; [done|]. by exists []. Qed.

Lemma traced_trans s1 s2 s3 : traced s1 s2 → traced s2 s3 → traced s1 s3.
Proof.
  intros [Hf1 [c1 H1]] [Hf2 [c2 H2]]. split; [congruence|].
  exists (c1 ++ c2). rewrite session_app, H2, H1.
  destruct (session c1 _) as [l1 g1]. simpl.
  destruct (session c2 g1) as [l2 g2]. reflexivity.
Qed.

Lemma traced_temp s : traced s (gen_temp s).2.
Proof. split; [done|]. by exists [call_new_temp]. Qed.

Lemma traced_label s : traced s (gen_label s).2.
Proof. split; [done|]. by exists [call_new_label]. Qed.

Lemma traced_emit op a1 a2 r s : traced s (gen_emit op a1 a2 r s).2.
Proof. split; [done|]. by exists [call_emit (op, a1, a2, r)]. Qed.

Lemma traced_add x t c s : traced s (scope_add x t c s).2.
Proof.
  unfold scope_add.
  destruct (add_symbol _ _ _ _); simpl; split; try done; by exists [].
Qed.

Lemma generate_code_traced node s : traced s (generate_code node s).2.
Proof.
  apply generate_code_respects.
  - apply traced_refl.
  - apply traced_trans.
  - apply traced_temp.
  - apply traced_label.
  - apply traced_emit.
  - apply traced_add.
Qed.

Lemma program_traced nodes s : traced s (for_each generate_code nodes s).2.
Proof.
  apply program_respects.
  - apply traced_refl.
  - apply traced_trans.
  - apply traced_temp.
  - apply traced_label.
  - apply traced_emit.
  - apply traced_add.
Qed.

Lemma generate_code_appends node s :
  let s' := (generate_code node s).2 in
  code (code_gen s') = code (code_gen s) ++ appended s s'
  ∧ (temp_count (code_gen s) ≤ temp_count (code_gen s'))%nat
  ∧ (label_count (code_gen s) ≤ label_count (code_gen s'))%nat
  ∧ functions s' = functions s.
Proof.
  destruct (generate_code_traced node s) as [Hf [calls Hc]]. simpl.
  destruct (session_state calls (code_gen s)) as (H1 & H2 & H3).
  unfold appended. rewrite Hc, H1, H2, H3, drop_app_length.
  repeat split; try lia. exact Hf.
Qed.

Lemma seq_increasing a n : StronglySorted lt (seq a n).
Proof.
  revert a. induction n as [|n IH]; intros a; simpl; constructor.
  - apply IH.
  - apply Forall_forall. intros x Hx. apply elem_of_seq in Hx. lia.
Qed.

Lemma issued_names_distinct a n b m :
  NoDup (map temp_name (seq a n) ++ map label_name (seq b m)).
Proof.
  apply NoDup_app. split; [|split].
  - apply (@NoDup_fmap_2 _ _ temp_name temp_name_inj), NoDup_seq.
  - intros x Ht Hl. apply list_elem_of_fmap in Ht as (i & -> & _).
    apply list_elem_of_fmap in Hl as (j & Hj & _). discriminate Hj.
  - apply (@NoDup_fmap_2 _ _ label_name label_name_inj), NoDup_seq.
Qed.

(** C8.  A session of the generator numbers its temporaries [t<N>] and its
    labels [L<N>], each kind from its own counter: the numbers issued are
    the consecutive ones from the counter at the start, in order (so they
    increase strictly), the counter ends that many higher, and no name of
    either kind is issued twice.  Every walk of [generate_code], and
    every walk over the nodes of a program one after the other, whether
    it returns or raises, is such a session on the analyzer's generator:
    the counters are never reset. *)
Theorem issued_names_increase_and_never_repeat :
  (∀ calls g,
     let log := (session calls g).1 in
     let g' := (session calls g).2 in
     temps_of log = map temp_name (seq (temp_count g) (count_temps calls))
     ∧ labels_of log = map label_name (seq (label_count g) (count_labels calls))
     ∧ StronglySorted lt (seq (temp_count g) (count_temps calls))
     ∧ StronglySorted lt (seq (label_count g) (count_labels calls))
     ∧ temp_count g' = (temp_count g + count_temps calls)%nat
     ∧ label_count g' = (label_count g + count_labels calls)%nat
     ∧ NoDup (temps_of log ++ labels_of log))
  ∧ (∀ node s, ∃ calls,
       code_gen (generate_code node s).2 = (session calls (code_gen s)).2)
  ∧ (∀ nodes s, ∃ calls,
       code_gen (for_each generate_code nodes s).2
       = (session calls (code_gen s)).2).
Proof.
  split.
  - intros calls g log g'. subst log g'.
    destruct (session_log calls g) as [Ht Hl].
    destruct (session_state calls g) as (_ & Hc & Hd).
    rewrite Ht, Hl. repeat split; auto using seq_increasing.
    apply issued_names_distinct.
  - split.
    + intros node s. apply generate_code_traced.
    + intros nodes s. apply program_traced.
Qed.

(** The first names, as [test_new_temp] and [test_new_label] read them. *)
Example first_names :
  (session [call_new_temp; call_new_temp; call_new_label; call_new_label]
           new_gen).1
  = [Temp "t0"; Temp "t1"; Label "L0"; Label "L1"].
Proof. reflexivity. Qed.

(** ** Nodes of an unknown kind *)

Lemma bind_ret {A B} (a : A) (k : A → M B) : bind (ret a) k = k a.
Proof. reflexivity. Qed.

Lemma field_get key d v : get key d = Some v → field key d = ret v.
Proof. unfold field. by intros ->. Qed.

Lemma field_str_get key d x : get key d = Some (PStr x) → field_str key d = ret x.
Proof. unfold field_str. by intros ->. Qed.

Lemma generate_code_other_tag d tag :
  get "type" d = Some tag →
  existsb (str_eq tag) handled_tags = false →
  generate_code (PDict d) = ret none2.
Proof.
  intros Htag Hnot. cbn [generate_code].
  rewrite (field_get _ _ _ Htag), bind_ret.
  simpl in Hnot. repeat (apply orb_false_elim in Hnot as [? Hnot]).
  repeat match goal with H : str_eq tag _ = false |- _ => rewrite H; clear H end.
  reflexivity.
Qed.

(** C10.  A node whose ['type'] is none of the ten handled tags (['block']
    and any misspelling among them) makes [generate_code] return
    [(None, None)]: nothing is raised, and the analyzer (instruction log,
    counters, scope chain, function table) is left as it was. *)
Theorem unhandled_tag_is_ignored d tag s :
  get "type" d = Some tag →
  existsb (str_eq tag) handled_tags = false →
  generate_code (PDict d) s = (Ok (PNone, None), s).
Proof.
  intros Htag Hnot. by rewrite (generate_code_other_tag d tag).
Qed.

Lemma unhandled_tag_is_ignored_witness :
  generate_code (block [PDict (assign "x" (literal (PInt 1)))]) new_analyzer
  = (Ok (PNone, None), new_analyzer).
Proof. apply (unhandled_tag_is_ignored _ (PStr "block")); reflexivity. Defined.

(** ** Scopes *)

Lemma check_symbol_innermost name self :
  check_symbol name self =
  match innermost name (chain self) with
  | Some e => Ok e
  | None => Raise (ValueError (NotDeclared name))
  end.
Proof.
  revert self. fix IH 1. intros [t [up|]]; simpl.
  - destruct (t !! name); [reflexivity | apply IH].
  - destruct (t !! name); reflexivity.
Qed.

Lemma innermost_none name tables :
  innermost name tables = None ↔ Forall (λ t, t !! name = None) tables.
Proof.
  induction tables as [|t tables IH]; simpl.
  - split; [constructor | done].
  - destruct (t !! name) eqn:Ht.
    + split; [done|]. intros H. apply Forall_cons in H as [H _]. congruence.
    + rewrite IH. split; [by constructor | by intros [_ ?]%Forall_cons].
Qed.

(** C7.  [add_symbol] (the spec's [declare]) raises, with the text
    "Variable '<name>' already declared", exactly when the table of the
    scope it is called on has the name; the ancestors are not looked at,
    so a name bound only further out is added, and is from then on what
    [check_symbol] finds.  [check_symbol] (the spec's [resolve]) returns
    the binding of the innermost scope of the chain that has one, and
    raises, with "Variable '<name>' not declared", exactly when no scope
    of the chain has the name; it raises nothing else.  (Both errors are
    a [ValueError] in the code; the kinds DeclarationError and NameError
    are the specification's names for these two texts.) *)
Theorem declare_and_resolve name t c self :
  (add_symbol name t c self = Raise (ValueError (AlreadyDeclared name))
     ↔ is_Some (table self !! name))
  ∧ (table self !! name = None →
       add_symbol name t c self
         = Ok (mkSymbolTable (<[name := Entry t c]> (table self)) (parent self))
       ∧ ∀ self', add_symbol name t c self = Ok self' →
           check_symbol name self' = Ok (Entry t c)
           ∧ parent self' = parent self)
  ∧ (∀ e, check_symbol name self = Ok e ↔ innermost name (chain self) = Some e)
  ∧ (check_symbol name self = Raise (ValueError (NotDeclared name))
       ↔ Forall (λ sc, sc !! name = None) (chain self))
  ∧ (∀ e, check_symbol name self = Raise e → e = ValueError (NotDeclared name)).
Proof.
  split; [|split; [|split; [|split]]].
  - unfold add_symbol. destruct (table self !! name); split;
      eauto; try discriminate. by intros [? [=]].
  - intros Hfree. unfold add_symbol. rewrite Hfree. split; [reflexivity|].
    intros self' [= <-]. simpl. by rewrite lookup_insert_eq.
  - intros e. rewrite check_symbol_innermost.
    destruct (innermost _ _); split; congruence.
  - rewrite check_symbol_innermost, <- innermost_none.
    destruct (innermost _ _); split; congruence.
  - intros e. rewrite check_symbol_innermost.
    destruct (innermost _ _); congruence.
Qed.

(** Shadowing, as [test_nested_scope] has it: the inner scope resolves
    [x] to the outer INT; it then declares [x] as FLOAT without error and
    resolves it to FLOAT; declaring [x] again in the outer scope fails. *)
Lemma declare_and_resolve_witness :
  check_symbol "x" inner_scope = Ok (Entry (Sym INT) false)
  ∧ add_symbol "x" (Sym FLOAT) false inner_scope
    = Ok (mkSymbolTable {["x" := Entry (Sym FLOAT) false]} (Some outer_scope))
  ∧ check_symbol "x"
      (mkSymbolTable {["x" := Entry (Sym FLOAT) false]} (Some outer_scope))
    = Ok (Entry (Sym FLOAT) false)
  ∧ add_symbol "x" (Sym FLOAT) false outer_scope
    = Raise (ValueError (AlreadyDeclared "x")).
Proof.
  pose proof (declare_and_resolve "x" (Sym FLOAT) false inner_scope)
    as (_ & Hadd & Hres & _).
  pose proof (declare_and_resolve "x" (Sym FLOAT) false outer_scope)
    as (Hdup & _).
  destruct (Hadd eq_refl) as [Hok Hnew].
  split; [|split; [|split]].
  - apply Hres. reflexivity.
  - exact Hok.
  - exact (proj1 (Hnew _ Hok)).
  - apply Hdup. eexists. reflexivity.
Defined.

(** ** Stepping through a walk *)

Lemma bind_gen_label {B} (k : string → M B) s :
  bind gen_label k s =
  k (label_name (label_count (code_gen s)))
    (with_gen s (mkGen (code (code_gen s)) (temp_count (code_gen s))
                       (label_count (code_gen s) + 1)%nat)).
Proof. reflexivity. Qed.

Lemma bind_gen_temp {B} (k : string → M B) s :
  bind gen_temp k s =
  k (temp_name (temp_count (code_gen s)))
    (with_gen s (mkGen (code (code_gen s)) (temp_count (code_gen s) + 1)%nat
                       (label_count (code_gen s)))).
Proof. reflexivity. Qed.

Lemma bind_gen_emit {B} op a1 a2 r (k : unit → M B) s :
  bind (gen_emit op a1 a2 r) k s =
  k () (with_gen s (emit op a1 a2 r (code_gen s))).
Proof. reflexivity. Qed.

Lemma with_gen_twice s g g' : with_gen (with_gen s g) g' = with_gen s g'.
Proof. reflexivity. Qed.

Lemma code_gen_with_gen s g : code_gen (with_gen s g) = g.
Proof. reflexivity. Qed.

(** Entering the branch of a tag that is a string literal. *)
Ltac enter_branch Htag :=
  cbn [generate_code];
  rewrite (field_get _ _ _ Htag), bind_ret;
  simpl (str_eq (PStr _) _); cbv iota.

Ltac run_step :=
  first
    [ rewrite bind_ret
    | rewrite bind_gen_label
    | rewrite bind_gen_temp
    | rewrite bind_gen_emit
    | erewrite item_get by eassumption
    | erewrite field_get by eassumption
    | erewrite field_str_get by eassumption
    | erewrite bind_ok by eassumption
    | erewrite bind_raise by eassumption ];
  rewrite ?with_gen_twice, ?code_gen_with_gen;
  cbn [code temp_count label_count emit].

Lemma analyze_assignment_eq name ety s en :
  check_symbol name (current_scope s) = Ok en →
  analyze_assignment name ety s =
  if is_const en then
    (Raise (ValueError (AssignmentError (CannotAssignConstant name))), s)
  else if is_ArrayType (type en) then
    (Raise (ValueError (AssignmentError (CannotAssignArray name))), s)
  else if bool_decide (Some (type en) = ety) then (Ok (type en), s)
  else if bool_decide (type en = Sym FLOAT) && type_is ety INT then
    (Ok (Sym FLOAT), s)
  else (Raise (ValueError (AssignmentError (AssignmentTypeMismatch name))), s).
Proof.
  intros H. unfold analyze_assignment, reraise, bind, scope_check. rewrite H.
  destruct (is_const en); [reflexivity|].
  destruct (is_ArrayType (type en)); [reflexivity|].
  destruct (bool_decide (Some (type en) = ety)); [reflexivity|]. simpl.
  destruct (bool_decide (type en = Sym FLOAT) && type_is ety INT); reflexivity.
Qed.

Lemma analyze_array_access_eq name ity s en :
  check_symbol name (current_scope s) = Ok en →
  analyze_array_access name ity s =
  match type en with
  | ArrayType base _ =>
      if negb (type_is ity INT) then
        (Raise (ValueError (ArrayAccessError IndexNotInteger)), s)
      else (Ok base, s)
  | _ => (Raise (ValueError (ArrayAccessError (NotAnArray name))), s)
  end.
Proof.
  intros H. unfold analyze_array_access, reraise, bind, scope_check. rewrite H.
  destruct (type en); try reflexivity.
  destruct (negb (type_is ity INT)); reflexivity.
Qed.

(** ** Statements *)

(** C6.  A [while] node whose condition evaluates to a BOOL: the walk
    allocates two labels, and appends, in this order, [label start], the
    instructions of the condition, [ifnot cond, _, end], the instructions
    of the body, [goto start] and [label end].  The two labels, the
    [ifnot] and the [goto] are the loop's own, whatever the body is. *)
Theorem while_emission d cond body s cref s1 r s2 :
  get "type" d = Some (PStr "while") →
  get "condition" d = Some cond →
  get "body" d = Some body →
  let n := label_count (code_gen s) in
  let start_label := PStr (label_name n) in
  let end_label := PStr (label_name (n + 1)) in
  let s0 := with_gen s (mkGen (code (code_gen s)
                                 ++ [(PStr "label", start_label, PNone, PNone)])
                              (temp_count (code_gen s)) (n + 2)%nat) in
  let s1' := with_gen s1 (emit (PStr "ifnot") cref PNone end_label (code_gen s1)) in
  generate_code cond s0 = (Ok (cref, Some (Sym BOOL)), s1) →
  generate_code body s1' = (Ok r, s2) →
  let s3 := with_gen s2 (emit (PStr "label") end_label PNone PNone
                           (emit (PStr "goto") PNone PNone start_label
                              (code_gen s2))) in
  generate_code (PDict d) s = (Ok (PNone, None), s3)
  ∧ code (code_gen s3) =
      code (code_gen s)
      ++ [(PStr "label", start_label, PNone, PNone)]
      ++ appended s0 s1
      ++ [(PStr "ifnot", cref, PNone, end_label)]
      ++ appended s1' s2
      ++ [(PStr "goto", PNone, PNone, start_label);
          (PStr "label", end_label, PNone, PNone)].
Proof.
  intros Htag Hcond Hbody n start_label end_label s0 s1' Hc Hb s3. split.
  - enter_branch Htag. repeat run_step.
    replace (label_count (code_gen s) + 1 + 1)%nat with (n + 2)%nat
      by (unfold n; lia).
    fold n s0. run_step.
    change (negb (type_is (Some (Sym BOOL)) BOOL)) with false. cbv iota.
    run_step. fold s1'. repeat run_step. reflexivity.
  - pose proof (generate_code_appends cond s0) as (Hc1 & _).
    pose proof (generate_code_appends body s1') as (Hb1 & _).
    rewrite Hc in Hc1. rewrite Hb in Hb1. simpl in Hc1, Hb1.
    subst s3. simpl. rewrite Hb1. simpl. rewrite Hc1. simpl.
    rewrite <- !app_assoc. reflexivity.
Qed.

Lemma while_emission_witness :
  code (code_gen (generate_code while_1_lt_2 new_analyzer).2) =
  [(PStr "label", PStr "L0", PNone, PNone);
   (PStr "<", PInt 1, PInt 2, PStr "t0");
   (PStr "ifnot", PStr "t0", PNone, PStr "L1");
   (PStr "goto", PNone, PNone, PStr "L0");
   (PStr "label", PStr "L1", PNone, PNone)].
Proof.
  pose proof (while_emission
                (while_ (binary "<" (literal (PInt 1)) (literal (PInt 2)))
                        (block []))
                _ _ new_analyzer _ _ _ _
                eq_refl eq_refl eq_refl eq_refl eq_refl) as [H _].
  unfold while_1_lt_2. rewrite H. reflexivity.
Defined.

(** C4.  A scalar assignment whose expression evaluated and whose target
    resolves to a binding that is neither const nor an array:
    - the types are identical: one store [= value, _, name];
    - the target is FLOAT and the expression INT: two instructions, an
      [inttofloat] of the value into a fresh temporary and the store of
      that temporary;
    - any other pair (FLOAT into INT among them): the assignment raises
      "Assignment error: Type mismatch in assignment to '<name>'" (a
      [ValueError]; the specification's TypeError) and appends nothing. *)
Theorem scalar_assignment_types d expr name s eref ety s1 en :
  get "type" d = Some (PStr "assignment") →
  get "index" d = None →
  get "expr" d = Some expr →
  get "var_name" d = Some (PStr name) →
  generate_code expr s = (Ok (eref, ety), s1) →
  check_symbol name (current_scope s1) = Ok en →
  is_const en = false →
  is_ArrayType (type en) = false →
  let g := code_gen s1 in
  let temp := PStr (temp_name (temp_count g)) in
  generate_code (PDict d) s =
    if bool_decide (Some (type en) = ety) then
      (Ok (PNone, None),
       with_gen s1 (mkGen (code g ++ [(PStr "=", eref, PNone, PStr name)])
                          (temp_count g) (label_count g)))
    else if bool_decide (type en = Sym FLOAT) && bool_decide (ety = Some (Sym INT))
    then
      (Ok (PNone, None),
       with_gen s1 (mkGen (code g ++ [(PStr "inttofloat", eref, PNone, temp);
                                      (PStr "=", temp, PNone, PStr name)])
                          (temp_count g + 1)%nat (label_count g)))
    else
      (Raise (ValueError (AssignmentError (AssignmentTypeMismatch name))), s1).
Proof.
  intros Htag Hidx Hexpr Hname He Hen Hconst Harr g temp.
  enter_branch Htag. unfold has_key. rewrite Hidx. repeat run_step.
  unfold bind at 1. rewrite (analyze_assignment_eq _ _ _ _ Hen), Hconst, Harr.
  unfold type_is.
  destruct (bool_decide_reflect (Some (type en) = ety)) as [Heq|Hne].
  - subst ety.
    replace (bool_decide (type en = Sym FLOAT)
             && bool_decide (Some (type en) = Some (Sym INT))) with false.
    + repeat run_step. reflexivity.
    + symmetry. apply andb_false_iff.
      destruct (bool_decide_reflect (type en = Sym FLOAT)) as [Hf|Hf]; [|by left].
      right. apply bool_decide_eq_false_2. congruence.
  - destruct (bool_decide (type en = Sym FLOAT) && bool_decide (ety = Some (Sym INT)))
      eqn:Hconv; [|reflexivity].
    apply andb_prop in Hconv as [_ Hi]. rewrite bool_decide_eq_true_2 by done.
    rewrite Hi. simpl. repeat run_step. unfold emit. simpl.
    rewrite <- app_assoc. reflexivity.
Qed.

Lemma scalar_assignment_types_witness :
  generate_code (PDict (assign "y" (literal (PInt 5)))) scope_x_y
  = (Ok (PNone, None),
     with_gen scope_x_y
       (mkGen [(PStr "inttofloat", PInt 5, PNone, PStr "t0");
               (PStr "=", PStr "t0", PNone, PStr "y")] 1 0))
  ∧ generate_code (PDict (assign "x" (literal (PFloat (5 # 2))))) scope_x_y
    = (Raise (ValueError (AssignmentError (AssignmentTypeMismatch "x"))),
       scope_x_y)
  ∧ generate_code (PDict (assign "x" (literal (PInt 42)))) scope_x_y
    = (Ok (PNone, None),
       with_gen scope_x_y (mkGen [(PStr "=", PInt 42, PNone, PStr "x")] 0 0)).
Proof.
  split; [|split].
  - exact (scalar_assignment_types (assign "y" (literal (PInt 5))) _ "y"
             scope_x_y _ _ _ _ eq_refl eq_refl eq_refl eq_refl eq_refl
             eq_refl eq_refl eq_refl).
  - exact (scalar_assignment_types (assign "x" (literal (PFloat (5 # 2)))) _ "x"
             scope_x_y _ _ _ _ eq_refl eq_refl eq_refl eq_refl eq_refl
             eq_refl eq_refl eq_refl).
  - exact (scalar_assignment_types (assign "x" (literal (PInt 42))) _ "x"
             scope_x_y _ _ _ _ eq_refl eq_refl eq_refl eq_refl eq_refl
             eq_refl eq_refl eq_refl).
Defined.

(** C5.  An assignment to an array element, once the index has evaluated
    and the name resolves to an array of base type [base]: an index that
    is not exactly INT raises "Array access error: Array index must be
    integer" before the expression is looked at; otherwise the expression
    is evaluated, and its type must be exactly [base]: if it is, one
    [arraystore(name, indexRef, exprRef)] is appended (and one temporary
    number is used up); if it is not, INT into a FLOAT array included,
    the assignment raises "Array element type mismatch in assignment to
    '<name>'" (a [ValueError]; the specification's TypeError). *)
Theorem array_element_assignment d index expr name s iref ity s1 en base size :
  get "type" d = Some (PStr "assignment") →
  get "index" d = Some index →
  get "expr" d = Some expr →
  get "var_name" d = Some (PStr name) →
  generate_code index s = (Ok (iref, ity), s1) →
  check_symbol name (current_scope s1) = Ok en →
  type en = ArrayType base size →
  generate_code (PDict d) s =
    if negb (bool_decide (ity = Some (Sym INT))) then
      (Raise (ValueError (ArrayAccessError IndexNotInteger)), s1)
    else
      match generate_code expr s1 with
      | (Raise e, s2) => (Raise e, s2)
      | (Ok (eref, ety), s2) =>
          if bool_decide (Some (Sym base) = ety) then
            (Ok (PNone, None),
             with_gen s2
               (mkGen (code (code_gen s2)
                         ++ [(PStr "arraystore", PStr name, iref, eref)])
                      (temp_count (code_gen s2) + 1)%nat
                      (label_count (code_gen s2))))
          else (Raise (ValueError (ElementTypeMismatch name)), s2)
      end.
Proof.
  intros Htag Hidx Hexpr Hname Hi Hen Harr.
  enter_branch Htag. unfold has_key. rewrite Hidx. repeat run_step.
  unfold bind at 1. rewrite (analyze_array_access_eq _ _ _ _ Hen), Harr.
  unfold type_is.
  destruct (negb (bool_decide (ity = Some (Sym INT)))); [reflexivity|].
  rewrite (item_get _ _ _ _ Hexpr). unfold bind at 1.
  destruct (generate_code expr s1) as [[[eref ety]|e] s2]; [|reflexivity].
  destruct (bool_decide (Some (Sym base) = ety)); simpl; [|reflexivity].
  repeat run_step. reflexivity.
Qed.

Lemma array_element_assignment_witness :
  generate_code (PDict (assign_at "arr" (literal (PInt 2)) (literal (PInt 10))))
                scope_arr
  = (Raise (ValueError (ElementTypeMismatch "arr")), scope_arr)
  ∧ generate_code (PDict (assign_at "arr" (literal (PInt 2))
                                    (literal (PFloat (5 # 2)))))
                  scope_arr
    = (Ok (PNone, None),
       with_gen scope_arr
         (mkGen [(PStr "arraystore", PStr "arr", PInt 2, PFloat (5 # 2))] 1 0))
  ∧ generate_code (PDict (assign_at "arr" (literal (PFloat (2 # 1)))
                                    (literal (PFloat (5 # 2)))))
                  scope_arr
    = (Raise (ValueError (ArrayAccessError IndexNotInteger)), scope_arr).
Proof.
  split; [|split].
  - exact (array_element_assignment
             (assign_at "arr" (literal (PInt 2)) (literal (PInt 10)))
             _ _ "arr" scope_arr _ _ _ _ _ _
             eq_refl eq_refl eq_refl eq_refl eq_refl eq_refl eq_refl).
  - exact (array_element_assignment
             (assign_at "arr" (literal (PInt 2)) (literal (PFloat (5 # 2))))
             _ _ "arr" scope_arr _ _ _ _ _ _
             eq_refl eq_refl eq_refl eq_refl eq_refl eq_refl eq_refl).
  - exact (array_element_assignment
             (assign_at "arr" (literal (PFloat (2 # 1))) (literal (PFloat (5 # 2))))
             _ _ "arr" scope_arr _ _ _ _ _ _
             eq_refl eq_refl eq_refl eq_refl eq_refl eq_refl eq_refl).
Defined.

(** C3, as the code has it.  A scalar assignment evaluates its expression
    first.  If that raises, the assignment raises the same and the target
    is never looked at.  If it returns, the target is resolved next, in
    the state the expression left: a const target raises "Assignment
    error: Cannot assign to constant '<name>'", an array target
    "Assignment error: Cannot directly assign to array '<name>'", and in
    both cases the analyzer stays as the expression left it: what the
    expression emitted is in the log, and no store follows it. *)
Theorem scalar_assignment_order d expr name s :
  get "type" d = Some (PStr "assignment") →
  get "index" d = None →
  get "expr" d = Some expr →
  get "var_name" d = Some (PStr name) →
  (∀ e s1, generate_code expr s = (Raise e, s1) →
     generate_code (PDict d) s = (Raise e, s1))
  ∧ (∀ eref ety s1 en,
       generate_code expr s = (Ok (eref, ety), s1) →
       check_symbol name (current_scope s1) = Ok en →
       (is_const en = true →
          generate_code (PDict d) s
          = (Raise (ValueError (AssignmentError (CannotAssignConstant name))), s1))
       ∧ (is_const en = false → is_ArrayType (type en) = true →
            generate_code (PDict d) s
            = (Raise (ValueError (AssignmentError (CannotAssignArray name))), s1))).
Proof.
  intros Htag Hidx Hexpr Hname. split.
  - intros e s1 He. enter_branch Htag. unfold has_key. rewrite Hidx.
    repeat run_step. reflexivity.
  - intros eref ety s1 en He Hen. split.
    + intros Hc. enter_branch Htag. unfold has_key. rewrite Hidx.
      repeat run_step. unfold bind at 1.
      rewrite (analyze_assignment_eq _ _ _ _ Hen), Hc. reflexivity.
    + intros Hc Ha. enter_branch Htag. unfold has_key. rewrite Hidx.
      repeat run_step. unfold bind at 1.
      rewrite (analyze_assignment_eq _ _ _ _ Hen), Hc, Ha. reflexivity.
Qed.

(** [MAX = 1 + 2] on a const [MAX]: the assignment fails on the const
    check, and the [+] of its right-hand side is in the log. *)
Lemma scalar_assignment_checks_after_expression :
  generate_code MAX_gets_1_plus_2 scope_MAX
  = (Raise (ValueError (AssignmentError (CannotAssignConstant "MAX"))),
     with_gen scope_MAX (mkGen [(PStr "+", PInt 1, PInt 2, PStr "t0")] 1 0)).
Proof. reflexivity. Qed.

Lemma scalar_assignment_order_witness :
  generate_code
    (PDict (assign "arr" (binary "+" (literal (PInt 1)) (literal (PInt 2)))))
    scope_arr
  = (Raise (ValueError (AssignmentError (CannotAssignArray "arr"))),
     with_gen scope_arr (mkGen [(PStr "+", PInt 1, PInt 2, PStr "t0")] 1 0)).
Proof.
  exact (proj2 (proj2 (scalar_assignment_order
                         (assign "arr" (binary "+" (literal (PInt 1)) (literal (PInt 2))))
                         _ "arr" scope_arr eq_refl eq_refl eq_refl eq_refl)
                  _ _ _ _ eq_refl eq_refl) eq_refl eq_refl).
Defined.

(** ** Calls *)

Lemma first_mismatch_same i (ps : list SymbolInfo) :
  first_mismatch i (map Some ps) ps = None.
Proof.
  revert i. induction ps as [|p ps IH]; intros i; simpl; [reflexivity|].
  rewrite bool_decide_eq_true_2 by reflexivity. apply IH.
Qed.

Lemma analyze_function_call_ok f s fi :
  functions s !! f = Some fi →
  analyze_function_call f (map Some (params fi)) s = (Ok (return_type fi), s).
Proof.
  intros Hf. unfold analyze_function_call. rewrite Hf.
  rewrite length_map, Nat.eqb_refl. simpl.
  rewrite first_mismatch_same. reflexivity.
Qed.

(** C1, as the code has it.  A call whose arguments evaluated, whose
    callee is registered, and whose argument types are, one for one, the
    parameter types: [analyze_function_call] returns the declared return
    type.  [generate_code] appends one [call] instruction carrying the
    argument references; when the declared return type is INT it takes a
    fresh temporary, puts it in the instruction and returns
    [(temporary, INT)]; for every other return type the instruction has
    no result and the node yields [(None, None)], no type at all. *)
Theorem function_call_result d xs f s rs s1 fi :
  get "type" d = Some (PStr "function_call") →
  get "args" d = Some (PList xs) →
  get "func_name" d = Some (PStr f) →
  for_each generate_code xs s = (Ok rs, s1) →
  functions s1 !! f = Some fi →
  map snd rs = map Some (params fi) →
  let g := code_gen s1 in
  let temp := PStr (temp_name (temp_count g)) in
  analyze_function_call f (map snd rs) s1 = (Ok (return_type fi), s1)
  ∧ generate_code (PDict d) s =
      if bool_decide (return_type fi = Sym INT) then
        (Ok (temp, Some (Sym INT)),
         with_gen s1
           (mkGen (code g ++ [(PStr "call", PStr f, PList (map fst rs), temp)])
                  (temp_count g + 1)%nat (label_count g)))
      else
        (Ok (PNone, None),
         with_gen s1
           (mkGen (code g ++ [(PStr "call", PStr f, PList (map fst rs), PNone)])
                  (temp_count g) (label_count g))).
Proof.
  intros Htag Hargs Hname Hrs Hf Hty g temp.
  assert (Ha : analyze_function_call f (map snd rs) s1 = (Ok (return_type fi), s1))
    by (rewrite Hty; by apply analyze_function_call_ok).
  split; [exact Ha|].
  enter_branch Htag. repeat run_step.
  destruct (bool_decide_reflect (return_type fi = Sym INT)) as [Hr|Hr]; simpl.
  - repeat run_step. rewrite Hr. reflexivity.
  - repeat run_step. reflexivity.
Qed.

(** [pow(2.0, 3.0)], declared to return FLOAT: the call is accepted, and
    the type the node reports is [None], not FLOAT. *)
Lemma float_call_reports_no_type :
  functions with_pow !! "pow" = Some (FuncInfo (Sym FLOAT) [Sym FLOAT; Sym FLOAT])
  ∧ generate_code
      (PDict (call "pow" [literal (PFloat (2 # 1)); literal (PFloat (3 # 1))]))
      with_pow
    = (Ok (PNone, None),
       with_gen with_pow
         (mkGen [(PStr "call", PStr "pow",
                  PList [PFloat (2 # 1); PFloat (3 # 1)], PNone)] 0 0)).
Proof. split; reflexivity. Qed.

Lemma function_call_result_witness :
  generate_code (PDict (call "factorial" [literal (PInt 5)])) with_pow
  = (Ok (PStr "t0", Some (Sym INT)),
     with_gen with_pow
       (mkGen [(PStr "call", PStr "factorial", PList [PInt 5], PStr "t0")] 1 0)).
Proof.
  exact (proj2 (function_call_result (call "factorial" [literal (PInt 5)])
                  _ "factorial" with_pow _ _ _
                  eq_refl eq_refl eq_refl eq_refl eq_refl eq_refl)).
Defined.

(** ** Blocks *)

(** An [if] without else-block whose then-block is a ['block'] node: the
    else-label follows the [ifnot] at once, whatever the block holds. *)
Lemma if_with_block_emits_no_statement d cond blk s cref s1 :
  get "type" d = Some (PStr "if") →
  get "condition" d = Some cond →
  get "then_block" d = Some (PDict blk) →
  get "type" blk = Some (PStr "block") →
  get "else_block" d = None →
  generate_code cond s = (Ok (cref, Some (Sym BOOL)), s1) →
  let g := code_gen s1 in
  let else_label := PStr (label_name (label_count g)) in
  generate_code (PDict d) s
  = (Ok (PNone, None),
     with_gen s1 (mkGen (code g ++ [(PStr "ifnot", cref, PNone, else_label);
                                    (PStr "label", else_label, PNone, PNone)])
                        (temp_count g) (label_count g + 1 + 1)%nat)).
Proof.
  intros Htag Hcond Hthen Hblk Helse Hc g else_label.
  enter_branch Htag. repeat run_step.
  change (negb (type_is (Some (Sym BOOL)) BOOL)) with false. cbv iota.
  unfold has_key. rewrite Helse. repeat run_step.
  rewrite (generate_code_other_tag blk (PStr "block") Hblk eq_refl).
  repeat run_step. unfold emit. simpl. rewrite <- app_assoc. reflexivity.
Qed.

(** C2, on the code.  The walk of that node appends the comparison, the
    [ifnot] and, right after it, the else-label: the store [= 1, _, x] of
    the statement inside the then-block is not there, because a ['block']
    node has no branch in [generate_code]. *)
Theorem if_drops_statements_of_block :
  generate_code if_x_gt_0_then_x_gets_1 scope_x_y
  = (Ok (PNone, None),
     with_gen scope_x_y
       (mkGen [(PStr ">", PStr "x", PInt 0, PStr "t0");
               (PStr "ifnot", PStr "t0", PNone, PStr "L0");
               (PStr "label", PStr "L0", PNone, PNone)] 1 2)).
Proof. reflexivity. Qed.

(** ** The parser *)

Module SintaxFacts.
Import Sintax.
Local Open Scope nat_scope.

Lemma fuel_le_refl {A} (r : result A) : fuel_le r r.
Proof. by right. Qed.

Lemma fuel_le_pbind {A B} (m1 m2 : P A) (k1 k2 : A → P B) p :
  fuel_le (m1 p) (m2 p) →
  (∀ a p', fuel_le (k1 a p') (k2 a p')) →
  fuel_le (pbind m1 k1 p) (pbind m2 k2 p).
Proof.
  unfold pbind. intros [H|H] Hk; rewrite H; [by left|].
  destruct (m2 p); [apply Hk | by right | by left].
Qed.

Ltac fuel_le_step :=
  match goal with
  | |- fuel_le (pbind _ _ _) (pbind _ _ _) => apply fuel_le_pbind; [|intros ? ?]
  | |- fuel_le ((if ?b then _ else _) _) _ => destruct b
  | |- fuel_le (if ?b then _ else _) _ => destruct b
  | |- fuel_le ?x ?x => apply fuel_le_refl
  | H : _ |- _ => apply H
  end.

(** More fuel never changes an answer already reached. *)
Lemma fuel_monotone n :
  ∀ m, n ≤ m →
    (∀ p, fuel_le (factor n p) (factor m p))
    ∧ (∀ p, fuel_le (term n p) (term m p))
    ∧ (∀ node p, fuel_le (term_loop n node p) (term_loop m node p))
    ∧ (∀ p, fuel_le (expr n p) (expr m p))
    ∧ (∀ node p, fuel_le (expr_loop n node p) (expr_loop m node p)).
Proof.
  induction n as [|n IH]; intros m Hm.
  - repeat split; intros; by left.
  - destruct m as [|m]; [lia|].
    destruct (IH m ltac:(lia)) as (Hf & Ht & Htl & He & Hel).
    repeat split; intros; cbn [factor term term_loop expr expr_loop];
      repeat fuel_le_step.
Qed.

Lemma expr_fuel n m p a p' :
  n ≤ m → expr n p = Parsed a p' → expr m p = Parsed a p'.
Proof.
  intros Hm H. destruct (fuel_monotone n m Hm) as (_ & _ & _ & He & _).
  destruct (He p) as [Ho|Ho]; congruence.
Qed.

Lemma statement_fuel n m :
  n ≤ m → ∀ p, fuel_le (statement n p) (statement m p).
Proof.
  intros Hm p. destruct (fuel_monotone n m Hm) as (_ & _ & _ & He & _).
  unfold statement, var_decl, assignment.
  repeat fuel_le_step.
Qed.

Lemma parse_loop_fuel n : ∀ m sts p,
  n ≤ m → fuel_le (parse_loop n sts p) (parse_loop m sts p).
Proof.
  induction n as [|n IH]; intros m sts p Hm; [by left|].
  destruct m as [|m]; [lia|]. cbn [parse_loop].
  pose proof (statement_fuel n m ltac:(lia)) as Hs.
  specialize (IH m). repeat fuel_le_step. all: lia.
Qed.

Lemma parse_fuel n m toks a p :
  n ≤ m → parse n toks = Parsed a p → parse m toks = Parsed a p.
Proof.
  intros Hm. unfold parse. destruct toks as [|t toks]; [done|].
  destruct (parse_loop_fuel n m [] (mkParser (t :: toks) t 0) Hm) as [H|H];
    rewrite H; [done|]. done.
Qed.

(** *** Moving along the tokens *)

Lemma eat_at toks i tt :
  type (tok_at toks i) = tt →
  eat tt (at_pos toks i) = Parsed () (at_pos toks (i + 1)).
Proof.
  intros H. unfold eat, at_pos. simpl.
  rewrite bool_decide_eq_true_2 by done. reflexivity.
Qed.

Lemma factor_atom toks i n :
  is_atom (tok_at toks i) = true →
  factor (S n) (at_pos toks i) = Parsed (leaf (tok_at toks i)) (at_pos toks (i + 1)).
Proof.
  intros Ha. cbn [factor]. unfold pbind, cur, leaf. simpl.
  unfold is_atom in Ha.
  destruct (type (tok_at toks i)) eqn:Hty; try discriminate Ha; simpl.
  - rewrite eat_at by done. reflexivity.
  - rewrite eat_at by done. reflexivity.
  - rewrite eat_at by done. reflexivity.
Qed.

Lemma flat_cons op a chain : flat ((op, a) :: chain) = op :: a :: flat chain.
Proof. reflexivity. Qed.

Lemma length_flat chain : length (flat chain) = 2 * length chain.
Proof.
  induction chain as [|[op a] chain IH]; [reflexivity|].
  rewrite flat_cons. simpl. lia.
Qed.

Lemma tok_at_lookup toks i t : toks !! i = Some t → tok_at toks i = t.
Proof. unfold tok_at. by intros ->. Qed.

Lemma stop_expr_loop ty :
  is_in ty [PLUS; MINUS; MUL; DIV] = false →
  is_in ty [PLUS; MINUS] = false ∧ is_in ty [MUL; DIV] = false.
Proof. destruct ty; vm_compute; intros; split; congruence. Qed.

Lemma additive_not_multiplicative ty :
  is_in ty [PLUS; MINUS] = true → is_in ty [MUL; DIV] = false.
Proof. destruct ty; vm_compute; congruence. Qed.

(** The loop of [term] over a chain of [*] and [/] between atoms. *)
Lemma term_loop_chain chain : ∀ toks i node n,
  (∀ j t, flat chain !! j = Some t → toks !! (i + j) = Some t) →
  Forall (λ '(op, a), is_in (type op) [MUL; DIV] = true ∧ is_atom a = true) chain →
  is_in (type (tok_at toks (i + length (flat chain)))) [MUL; DIV] = false →
  length chain + 2 ≤ n →
  term_loop n node (at_pos toks i)
  = Parsed (left_assoc node chain) (at_pos toks (i + length (flat chain))).
Proof.
  induction chain as [|[op a] chain IH]; intros toks i node n Htoks Hok Hstop Hn.
  - destruct n as [|n]; [lia|]. cbn [term_loop]. unfold pbind, cur. simpl in *.
    rewrite Nat.add_0_r in *. rewrite Hstop. reflexivity.
  - destruct n as [|n]; [lia|]. apply Forall_cons in Hok as [[Hop Ha] Hok].
    rewrite flat_cons in *. simpl length in *.
    assert (Hi : tok_at toks i = op).
    { apply tok_at_lookup. rewrite <- (Nat.add_0_r i). by apply Htoks. }
    assert (Hi1 : tok_at toks (i + 1) = a).
    { apply tok_at_lookup. by apply Htoks. }
    cbn [term_loop]. unfold pbind at 1, cur at 1.
    change (current_token (at_pos toks i)) with (tok_at toks i).
    rewrite Hi, Hop. unfold pbind at 1. rewrite eat_at by (by rewrite Hi).
    unfold pbind at 1. destruct n as [|n]; [lia|].
    rewrite factor_atom by (by rewrite Hi1). rewrite Hi1.
    replace (i + S (S (length (flat chain)))) with (i + 1 + 1 + length (flat chain)) by lia.
    apply IH; try done; try lia.
    + intros j t Hj. replace (i + 1 + 1 + j) with (i + S (S j)) by lia.
      by apply Htoks.
    + replace (i + 1 + 1 + length (flat chain)) with (i + S (S (length (flat chain)))) by lia.
      done.
Qed.

Lemma term_single toks i n :
  is_atom (tok_at toks i) = true →
  is_in (type (tok_at toks (i + 1))) [MUL; DIV] = false →
  3 ≤ n →
  term n (at_pos toks i) = Parsed (leaf (tok_at toks i)) (at_pos toks (i + 1)).
Proof.
  intros Ha Hstop Hn. destruct n as [|[|n]]; try lia.
  cbn [term]. unfold pbind at 1. rewrite factor_atom by done.
  rewrite (term_loop_chain [] toks (i + 1));
    simpl; rewrite ?Nat.add_0_r; try done; lia.
Qed.

(** The loop of [expr] over a chain of [+] and [-] between atoms. *)
Lemma expr_loop_chain chain : ∀ toks i node n,
  (∀ j t, flat chain !! j = Some t → toks !! (i + j) = Some t) →
  Forall (λ '(op, a), is_in (type op) [PLUS; MINUS] = true ∧ is_atom a = true) chain →
  is_in (type (tok_at toks (i + length (flat chain)))) [PLUS; MINUS; MUL; DIV] = false →
  length chain + 4 ≤ n →
  expr_loop n node (at_pos toks i)
  = Parsed (left_assoc node chain) (at_pos toks (i + length (flat chain))).
Proof.
  induction chain as [|[op a] chain IH]; intros toks i node n Htoks Hok Hstop Hn.
  - destruct n as [|n]; [lia|]. cbn [expr_loop]. unfold pbind, cur. simpl in *.
    rewrite Nat.add_0_r in *.
    apply stop_expr_loop in Hstop as [-> _]. reflexivity.
  - destruct n as [|n]; [lia|]. apply Forall_cons in Hok as [[Hop Ha] Hok].
    rewrite flat_cons in *. simpl length in *.
    assert (Hi : tok_at toks i = op).
    { apply tok_at_lookup. rewrite <- (Nat.add_0_r i). by apply Htoks. }
    assert (Hi1 : tok_at toks (i + 1) = a).
    { apply tok_at_lookup. by apply Htoks. }
    assert (Hnext : is_in (type (tok_at toks (i + 1 + 1))) [MUL; DIV] = false).
    { destruct chain as [|[op' a'] chain].
      - simpl in Hstop. replace (i + 1 + 1) with (i + 2) by lia.
        by apply stop_expr_loop in Hstop as [_ ?].
      - apply Forall_cons in Hok as [[Hop' _] _].
        rewrite (tok_at_lookup _ _ op').
        + by apply additive_not_multiplicative.
        + replace (i + 1 + 1) with (i + 2) by lia. by apply Htoks. }
    cbn [expr_loop]. unfold pbind at 1, cur at 1.
    change (current_token (at_pos toks i)) with (tok_at toks i).
    rewrite Hi, Hop. unfold pbind at 1. rewrite eat_at by (by rewrite Hi).
    unfold pbind at 1.
    rewrite term_single by (rewrite ?Hi1; done || lia). rewrite Hi1.
    replace (i + S (S (length (flat chain)))) with (i + 1 + 1 + length (flat chain)) by lia.
    apply IH; try done; try lia.
    + intros j t Hj. replace (i + 1 + 1 + j) with (i + S (S j)) by lia.
      by apply Htoks.
    + replace (i + 1 + 1 + length (flat chain)) with (i + S (S (length (flat chain)))) by lia.
      done.
Qed.

(** *** Chains inside a token list *)

Section Chain.
Variables (pre post : list Token) (a0 : Token).

Lemma chain_first chain : tok_at (around pre a0 chain post) (length pre) = a0.
Proof.
  apply tok_at_lookup. unfold around.
  rewrite lookup_app_r, Nat.sub_diag by lia. reflexivity.
Qed.

Lemma chain_rest chain j t :
  flat chain !! j = Some t →
  around pre a0 chain post !! (length pre + 1 + j) = Some t.
Proof.
  intros H. unfold around. rewrite lookup_app_r by lia.
  replace (length pre + 1 + j - length pre) with (S j) by lia. simpl.
  by apply lookup_app_l_Some.
Qed.

Lemma chain_stop chain :
  tok_at (around pre a0 chain post) (length pre + 1 + length (flat chain))
  = hd eof_token post.
Proof.
  unfold tok_at, around. rewrite lookup_app_r by lia.
  replace (length pre + 1 + length (flat chain) - length pre)
    with (S (length (flat chain))) by lia. simpl.
  rewrite lookup_app_r, Nat.sub_diag by lia. by destruct post.
Qed.

Lemma term_chain chain n :
  is_atom a0 = true →
  Forall (λ '(op, a), is_in (type op) [MUL; DIV] = true ∧ is_atom a = true) chain →
  is_in (type (hd eof_token post)) [MUL; DIV] = false →
  length chain + 3 ≤ n →
  term n (at_pos (around pre a0 chain post) (length pre))
  = Parsed (left_assoc (leaf a0) chain)
           (at_pos (around pre a0 chain post) (length pre + 1 + 2 * length chain)).
Proof.
  intros Ha Hok Hstop Hn. destruct n as [|n]; [lia|]. cbn [term].
  destruct n as [|n]; [lia|]. unfold pbind at 1.
  rewrite factor_atom by (by rewrite chain_first). rewrite chain_first.
  rewrite <- length_flat.
  apply term_loop_chain; try done; try lia.
  - apply chain_rest.
  - by rewrite chain_stop.
Qed.

Lemma expr_chain chain n :
  is_atom a0 = true →
  Forall (λ '(op, a), is_in (type op) [PLUS; MINUS] = true ∧ is_atom a = true) chain →
  is_in (type (hd eof_token post)) [PLUS; MINUS; MUL; DIV] = false →
  length chain + 5 ≤ n →
  expr n (at_pos (around pre a0 chain post) (length pre))
  = Parsed (left_assoc (leaf a0) chain)
           (at_pos (around pre a0 chain post) (length pre + 1 + 2 * length chain)).
Proof.
  intros Ha Hok Hstop Hn. destruct n as [|n]; [lia|]. cbn [expr].
  unfold pbind at 1.
  assert (Hnext : is_in (type (tok_at (around pre a0 chain post) (length pre + 1)))
                        [MUL; DIV] = false).
  { destruct chain as [|[op a] c].
    - pose proof (chain_stop []) as Hs. simpl in Hs.
      rewrite Nat.add_0_r in Hs. rewrite Hs.
      by apply stop_expr_loop in Hstop as [_ ?].
    - apply Forall_cons in Hok as [[Hop _] _].
      rewrite (tok_at_lookup _ _ op).
      + by apply additive_not_multiplicative.
      + rewrite <- (Nat.add_0_r (length pre + 1)). by apply chain_rest. }
  rewrite term_single by (rewrite ?chain_first; done || lia).
  rewrite chain_first, <- length_flat.
  apply expr_loop_chain; try done; try lia.
  - apply chain_rest.
  - by rewrite chain_stop.
Qed.

End Chain.

(** *** Chains of operands of any shape *)

Lemma factor_fuel n m p a p' :
  n ≤ m → factor n p = Parsed a p' → factor m p = Parsed a p'.
Proof.
  intros Hm H. destruct (fuel_monotone n m Hm) as (Hf & _).
  destruct (Hf p) as [Ho|Ho]; congruence.
Qed.

Lemma term_fuel n m p a p' :
  n ≤ m → term n p = Parsed a p' → term m p = Parsed a p'.
Proof.
  intros Hm H. destruct (fuel_monotone n m Hm) as (_ & Ht & _).
  destruct (Ht p) as [Ho|Ho]; congruence.
Qed.

(** The loop of [term] along a chain of [*] and [/]: whatever the
    operands are, each is put to the right of the tree built so far. *)
Lemma term_loop_nest chain : ∀ toks m j node j' n,
  chain_at (factor m) [MUL; DIV] toks j chain j' →
  is_in (type (tok_at toks j')) [MUL; DIV] = false →
  m + length chain + 1 ≤ n →
  term_loop n node (at_pos toks j)
  = Parsed (nest_left node chain) (at_pos toks j').
Proof.
  induction chain as [|[op a] chain IH]; intros toks m j node j' n Hc Hstop Hn.
  - simpl in Hc. subst j'. destruct n as [|n]; [lia|].
    cbn [term_loop]. unfold pbind, cur. simpl. rewrite Hstop. reflexivity.
  - destruct Hc as (Hop & Hin & j1 & Ha & Hc).
    destruct n as [|n]; [simpl in Hn; lia|]. simpl in Hn.
    cbn [term_loop]. unfold pbind at 1, cur at 1.
    change (current_token (at_pos toks j)) with (tok_at toks j).
    rewrite Hop, Hin. unfold pbind at 1. rewrite eat_at by (by rewrite Hop).
    unfold pbind at 1. rewrite (factor_fuel m n _ _ _ ltac:(lia) Ha).
    apply (IH toks m); [exact Hc|exact Hstop|lia].
Qed.

(** The loop of [expr] along a chain of [+] and [-]. *)
Lemma expr_loop_nest chain : ∀ toks m j node j' n,
  chain_at (term m) [PLUS; MINUS] toks j chain j' →
  is_in (type (tok_at toks j')) [PLUS; MINUS] = false →
  m + length chain + 1 ≤ n →
  expr_loop n node (at_pos toks j)
  = Parsed (nest_left node chain) (at_pos toks j').
Proof.
  induction chain as [|[op a] chain IH]; intros toks m j node j' n Hc Hstop Hn.
  - simpl in Hc. subst j'. destruct n as [|n]; [lia|].
    cbn [expr_loop]. unfold pbind, cur. simpl. rewrite Hstop. reflexivity.
  - destruct Hc as (Hop & Hin & j1 & Ha & Hc).
    destruct n as [|n]; [simpl in Hn; lia|]. simpl in Hn.
    cbn [expr_loop]. unfold pbind at 1, cur at 1.
    change (current_token (at_pos toks j)) with (tok_at toks j).
    rewrite Hop, Hin. unfold pbind at 1. rewrite eat_at by (by rewrite Hop).
    unfold pbind at 1. rewrite (term_fuel m n _ _ _ ltac:(lia) Ha).
    apply (IH toks m); [exact Hc|exact Hstop|lia].
Qed.

Lemma term_nest toks i m first j chain j' fuel :
  factor m (at_pos toks i) = Parsed first (at_pos toks j) →
  chain_at (factor m) [MUL; DIV] toks j chain j' →
  is_in (type (tok_at toks j')) [MUL; DIV] = false →
  m + length chain + 2 ≤ fuel →
  term fuel (at_pos toks i) = Parsed (nest_left first chain) (at_pos toks j').
Proof.
  intros Hf Hc Hstop Hn. destruct fuel as [|n]; [lia|]. cbn [term].
  unfold pbind at 1. rewrite (factor_fuel m n _ _ _ ltac:(lia) Hf).
  apply (term_loop_nest chain toks m); [exact Hc|exact Hstop|lia].
Qed.

Lemma expr_nest toks i m first j chain j' fuel :
  term m (at_pos toks i) = Parsed first (at_pos toks j) →
  chain_at (term m) [PLUS; MINUS] toks j chain j' →
  is_in (type (tok_at toks j')) [PLUS; MINUS] = false →
  m + length chain + 2 ≤ fuel →
  expr fuel (at_pos toks i) = Parsed (nest_left first chain) (at_pos toks j').
Proof.
  intros Hf Hc Hstop Hn. destruct fuel as [|n]; [lia|]. cbn [expr].
  unfold pbind at 1. rewrite (term_fuel m n _ _ _ ltac:(lia) Hf).
  apply (expr_loop_nest chain toks m); [exact Hc|exact Hstop|lia].
Qed.

(** C9.  [2 + 3 * 4] parses to [2 + (3 * 4)] and [(2 + 3) * 4] to
    [(2 + 3) * 4], for every fuel from ten on.  Every chain of [*] and
    [/] is parsed by [term] to the tree nested to the left, whatever its
    operands are (numbers, identifiers, expressions in parentheses: what
    [factor] parses from the token after each operator), wherever the
    chain stands in the tokens, up to the first token that is neither
    [*] nor [/]; and so is every chain of [+] and [-] by [expr], whose
    operands are what [term] parses, products and quotients included.
    The parser is left on the token after the chain.  [m] is a fuel that
    is enough for each operand. *)
Theorem precedence_and_left_associativity :
  (∀ fuel, 10 ≤ fuel → ∃ p,
     parse fuel tokens_2_plus_3_times_4
     = Parsed (Program
                 [BinOp (Num (token INTEGER (PInt 2))) (token PLUS PNone)
                        (BinOp (Num (token INTEGER (PInt 3))) (token MUL PNone)
                               (Num (token INTEGER (PInt 4))))]) p)
  ∧ (∀ fuel, 10 ≤ fuel → ∃ p,
       parse fuel tokens_paren_2_plus_3_times_4
       = Parsed (Program
                   [BinOp (BinOp (Num (token INTEGER (PInt 2))) (token PLUS PNone)
                                 (Num (token INTEGER (PInt 3))))
                          (token MUL PNone)
                          (Num (token INTEGER (PInt 4)))]) p)
  ∧ (∀ toks i m first j chain j' fuel,
       factor m (at_pos toks i) = Parsed first (at_pos toks j) →
       chain_at (factor m) [MUL; DIV] toks j chain j' →
       is_in (type (tok_at toks j')) [MUL; DIV] = false →
       m + length chain + 2 ≤ fuel →
       term fuel (at_pos toks i)
       = Parsed (nest_left first chain) (at_pos toks j'))
  ∧ (∀ toks i m first j chain j' fuel,
       term m (at_pos toks i) = Parsed first (at_pos toks j) →
       chain_at (term m) [PLUS; MINUS] toks j chain j' →
       is_in (type (tok_at toks j')) [PLUS; MINUS] = false →
       m + length chain + 2 ≤ fuel →
       expr fuel (at_pos toks i)
       = Parsed (nest_left first chain) (at_pos toks j')).
Proof.
  split; [|split; [|split]].
  - intros fuel Hf. eexists. apply (parse_fuel 10); [exact Hf|]. reflexivity.
  - intros fuel Hf. eexists. apply (parse_fuel 10); [exact Hf|]. reflexivity.
  - intros. by eapply term_nest.
  - intros. by eapply expr_nest.
Qed.

(** [1 - 2 - 3 * 4] is [(1 - 2) - (3 * 4)]: the chain of [-] nests to
    the left and its last operand is the product. *)
Lemma precedence_and_left_associativity_witness :
  expr 7 (at_pos tokens_1_minus_2_minus_3_times_4 0)
  = Parsed (BinOp (BinOp (Num (token INTEGER (PInt 1))) (token MINUS PNone)
                         (Num (token INTEGER (PInt 2))))
                  (token MINUS PNone)
                  (BinOp (Num (token INTEGER (PInt 3))) (token MUL PNone)
                         (Num (token INTEGER (PInt 4)))))
           (at_pos tokens_1_minus_2_minus_3_times_4 7).
Proof.
  apply (proj2 (proj2 (proj2 precedence_and_left_associativity))
           tokens_1_minus_2_minus_3_times_4 0 3
           (Num (token INTEGER (PInt 1))) 1
           [(token MINUS PNone, Num (token INTEGER (PInt 2)));
            (token MINUS PNone,
             BinOp (Num (token INTEGER (PInt 3))) (token MUL PNone)
                   (Num (token INTEGER (PInt 4))))]
           7 7).
  - reflexivity.
  - simpl. split; [reflexivity|]. split; [reflexivity|].
    exists 3. split; [reflexivity|]. split; [reflexivity|].
    split; [reflexivity|]. exists 7. split; reflexivity.
  - reflexivity.
  - simpl. lia.
Defined.

End SintaxFacts.

(** * Further properties of the analyzer *)

(** ** What no walk does *)






(** The instruction log only grows and the counters never go back: after a
    walk over the nodes of a program, returned or raised, the log is the
    log before followed by what was appended, both counters are at least
    what they were, and the function table is the same. *)
Theorem log_only_grows nodes s :
  let s' := (for_each generate_code nodes s).2 in
  code (code_gen s') = code (code_gen s) ++ appended s s'
  ∧ (temp_count (code_gen s) ≤ temp_count (code_gen s'))%nat
  ∧ (label_count (code_gen s) ≤ label_count (code_gen s'))%nat
  ∧ functions s' = functions s.
Proof.
  destruct (program_traced nodes s) as [Hf [calls Hc]]. simpl.
  destruct (session_state calls (code_gen s)) as (H1 & H2 & H3).
  unfold appended. rewrite Hc, H1, H2, H3, drop_app_length.
  repeat split; try lia. exact Hf.
Qed.

(** ** Declarations *)

Lemma bind_raise_inv {A B} (m : M A) (k : A → M B) s e s' :
  bind m k s = (Raise e, s') →
  m s = (Raise e, s') ∨ ∃ a s1, m s = (Ok a, s1) ∧ k a s1 = (Raise e, s').
Proof.
  unfold bind. destruct (m s) as [[a|e1] s1]; intros H.
  - right. by exists a, s1.
  - left. congruence.
Qed.

Lemma field_pure key d s : (field key d s).2 = s.
Proof. unfold field. by destruct (get key d). Qed.

Lemma field_str_pure key d s : (field_str key d s).2 = s.
Proof. unfold field_str. by destruct (get key d) as [[]|]. Qed.

Lemma field_size_pure d s : (field_size d s).2 = s.
Proof. unfold field_size. by destruct (get "array_size" d) as [[]|]. Qed.

Lemma scope_add_raise x t c s e s' :
  scope_add x t c s = (Raise e, s') → s' = s.
Proof.
  unfold scope_add. destruct (add_symbol x t c (current_scope s)); congruence.
Qed.

Lemma analyze_declaration_raise t x c a s e s' :
  analyze_declaration t x c a s = (Raise e, s') → s' = s.
Proof.
  unfold analyze_declaration, reraise.
  match goal with |- context [bind ?m ?k s] =>
    assert (Hm : (m s).2 = s);
    [|destruct (bind m k s) as [[u|e1] s1] eqn:E; [congruence|]] end.
  { destruct a as [size|].
    - destruct (number_of size) as [n|]; [|reflexivity].
      destruct (Qle_bool n 0); [reflexivity|].
      by destruct (SymbolType_of t).
    - by destruct (SymbolType_of t). }
  intros H. assert (s' = s1) as -> by (destruct e1; congruence). clear H.
  apply bind_raise_inv in E as [E|(ty & s2 & E1 & E2)].
  - by rewrite E in Hm.
  - apply scope_add_raise in E2 as ->. by rewrite E1 in Hm.
Qed.

(** A declaration that fails has no effect: whatever it raises (missing
    field, size not positive, unknown type, name already declared in the
    current scope), the analyzer is left exactly as it was: nothing is
    bound and nothing is emitted. *)
Theorem declaration_fails_cleanly d s e s' :
  get "type" d = Some (PStr "declaration") →
  generate_code (PDict d) s = (Raise e, s') →
  s' = s.
Proof.
  intros Htag. enter_branch Htag. intros H.
  apply bind_raise_inv in H as [H|(a & s1 & H1 & H)].
  { pose proof (field_size_pure d s) as P. by rewrite H in P. }
  pose proof (field_size_pure d s) as P. rewrite H1 in P. simpl in P. subst s1.
  apply bind_raise_inv in H as [H|(t & s1 & H2 & H)].
  { pose proof (field_pure "data_type" d s) as P. by rewrite H in P. }
  pose proof (field_pure "data_type" d s) as P. rewrite H2 in P. simpl in P. subst s1.
  apply bind_raise_inv in H as [H|(x & s1 & H3 & H)].
  { pose proof (field_str_pure "var_name" d s) as P. by rewrite H in P. }
  pose proof (field_str_pure "var_name" d s) as P. rewrite H3 in P. simpl in P. subst s1.
  apply bind_raise_inv in H as [H|([] & s1 & H4 & H)].
  { by apply analyze_declaration_raise in H. }
  apply bind_raise_inv in H as [H|([] & s2 & H5 & H)].
  - destruct a; [unfold gen_emit in H|unfold ret in H]; congruence.
  - unfold ret in H. congruence.
Qed.

Lemma declaration_fails_cleanly_witness :
  (generate_code (PDict (declare "int" "x" [])) scope_x_y).2 = scope_x_y.
Proof.
  apply (declaration_fails_cleanly (declare "int" "x" []) scope_x_y
           (ValueError (DeclarationError (AlreadyDeclared "x")))).
  - reflexivity.
  - vm_compute. reflexivity.
Defined.
(** The declaration of an array, field by field.  The size is whatever
    the node holds that is not [None]; it is compared with [0] first: a
    value that is no number raises the interpreter's [TypeError],
    unwrapped, and a number that is not positive "Declaration error:
    Array size must be positive".  A bool or a float that is positive is
    accepted as a size.  Then the base type must be the value of a
    [SymbolType], then the name must be new in the current scope; only
    then is the name bound to [ArrayType(base, size)] with the const flag
    of the node, and one [alloc(name, size)] is appended, with the size
    as the node gave it. *)
Theorem array_declaration d s tyv name size :
  get "type" d = Some (PStr "declaration") →
  get "data_type" d = Some tyv →
  get "var_name" d = Some (PStr name) →
  get "array_size" d = Some size →
  size ≠ PNone →
  generate_code (PDict d) s =
    match number_of size with
    | None => (Raise (PyTypeError "'<=' not supported"), s)
    | Some n =>
        if Qle_bool n 0 then
          (Raise (ValueError (DeclarationError ArraySizeNotPositive)), s)
        else match SymbolType_of tyv with
             | None =>
                 (Raise (ValueError (DeclarationError (NotAValidSymbolType tyv))), s)
             | Some base =>
                 match table (current_scope s) !! name with
                 | Some _ =>
                     (Raise (ValueError (DeclarationError (AlreadyDeclared name))), s)
                 | None =>
                     let s1 := with_symbol s name
                                 (Entry (ArrayType base n) (const_flag d)) in
                     (Ok (PNone, None),
                      with_gen s1 (emit (PStr "alloc") (PStr name) size PNone
                                     (code_gen s)))
                 end
             end
    end.
Proof.
  intros Htag Hty Hname Hsize Hnone. enter_branch Htag.
  assert (Hs : field_size d = ret (Some size)).
  { unfold field_size. rewrite Hsize. by destruct size. }
  rewrite Hs. repeat run_step.
  unfold bind, analyze_declaration, reraise, bind, scope_add, add_symbol,
    raise, ret, gen_emit, const_flag.
  destruct (number_of size) as [n|]; [|reflexivity].
  destruct (Qle_bool n 0); [reflexivity|].
  destruct (SymbolType_of tyv); [|reflexivity].
  simpl. destruct (table (current_scope s) !! name); reflexivity.
Qed.

Lemma array_declaration_witness :
  generate_code (PDict (declare "int" "a" [("array_size", PInt 0)])) new_analyzer
  = (Raise (ValueError (DeclarationError ArraySizeNotPositive)), new_analyzer)
  ∧ generate_code (PDict (declare "int" "a" [("array_size", PInt 5)])) new_analyzer
    = (Ok (PNone, None),
       mkAnalyzer (mkSymbolTable {["a" := Entry (ArrayType INT 5) false]} None)
                  (mkGen [(PStr "alloc", PStr "a", PInt 5, PNone)] 0 0) ∅)
  ∧ generate_code (PDict (declare "int" "a" [("array_size", PBool true)])) new_analyzer
    = (Ok (PNone, None),
       mkAnalyzer (mkSymbolTable {["a" := Entry (ArrayType INT 1) false]} None)
                  (mkGen [(PStr "alloc", PStr "a", PBool true, PNone)] 0 0) ∅)
  ∧ generate_code (PDict (declare "int" "a" [("array_size", PStr "5")])) new_analyzer
    = (Raise (PyTypeError "'<=' not supported"), new_analyzer).
Proof.
  split; [|split; [|split]].
  - apply (array_declaration (declare "int" "a" [("array_size", PInt 0)])
             new_analyzer (PStr "int") "a" (PInt 0)); done.
  - apply (array_declaration (declare "int" "a" [("array_size", PInt 5)])
             new_analyzer (PStr "int") "a" (PInt 5)); done.
  - apply (array_declaration (declare "int" "a" [("array_size", PBool true)])
             new_analyzer (PStr "int") "a" (PBool true)); done.
  - apply (array_declaration (declare "int" "a" [("array_size", PStr "5")])
             new_analyzer (PStr "int") "a" (PStr "5")); done.
Defined.

(** The declaration of a scalar (no ['array_size'], or [None]): the type
    must be the value of a [SymbolType] (['array'] and ['function'] are
    such values too) and the name new in the current scope; the name is
    then bound, with the const flag of the node, and nothing is emitted. *)
Theorem scalar_declaration d s tyv name :
  get "type" d = Some (PStr "declaration") →
  get "data_type" d = Some tyv →
  get "var_name" d = Some (PStr name) →
  get "array_size" d = None ∨ get "array_size" d = Some PNone →
  generate_code (PDict d) s =
    match SymbolType_of tyv with
    | None =>
        (Raise (ValueError (DeclarationError (NotAValidSymbolType tyv))), s)
    | Some t =>
        match table (current_scope s) !! name with
        | Some _ =>
            (Raise (ValueError (DeclarationError (AlreadyDeclared name))), s)
        | None =>
            (Ok (PNone, None), with_symbol s name (Entry (Sym t) (const_flag d)))
        end
    end.
Proof.
  intros Htag Hty Hname Hsize. enter_branch Htag.
  assert (Hs : field_size d = ret None).
  { unfold field_size. by destruct Hsize as [-> | ->]. }
  rewrite Hs. repeat run_step.
  unfold bind, analyze_declaration, reraise, bind, scope_add, add_symbol,
    raise, ret, const_flag.
  destruct (SymbolType_of tyv); [|reflexivity].
  simpl. destruct (table (current_scope s) !! name); [reflexivity|].
  destruct s as [[t0 p0] g0 f0]. reflexivity.
Qed.

Lemma scalar_declaration_witness :
  generate_code (PDict (declare "float" "y" [("is_const", PBool true)]))
                new_analyzer
  = (Ok (PNone, None),
     mkAnalyzer (mkSymbolTable {["y" := Entry (Sym FLOAT) true]} None) new_gen ∅)
  ∧ generate_code (PDict (declare "array" "v" [])) new_analyzer
    = (Ok (PNone, None),
       mkAnalyzer (mkSymbolTable {["v" := Entry (Sym ARRAY) false]} None) new_gen ∅)
  ∧ generate_code (PDict (declare "double" "w" [])) new_analyzer
    = (Raise (ValueError (DeclarationError (NotAValidSymbolType (PStr "double")))),
       new_analyzer).
Proof.
  split; [|split].
  - exact (scalar_declaration (declare "float" "y" [("is_const", PBool true)])
             new_analyzer _ "y" eq_refl eq_refl eq_refl (or_introl eq_refl)).
  - exact (scalar_declaration (declare "array" "v" [])
             new_analyzer _ "v" eq_refl eq_refl eq_refl (or_introl eq_refl)).
  - exact (scalar_declaration (declare "double" "w" [])
             new_analyzer _ "w" eq_refl eq_refl eq_refl (or_introl eq_refl)).
Defined.

(** ** Scopes: entering, leaving, adding *)

(** Adding a name leaves every other name as it resolved before, in the
    scope and through its ancestors. *)
Theorem add_symbol_frame name t c self self' other :
  add_symbol name t c self = Ok self' →
  other ≠ name →
  check_symbol other self' = check_symbol other self.
Proof.
  unfold add_symbol. destruct self as [tbl up]. simpl.
  destruct (tbl !! name); [discriminate|]. intros [= <-] Hne.
  simpl. rewrite lookup_insert_ne by done. reflexivity.
Qed.

Lemma add_symbol_frame_witness :
  check_symbol "x" (mkSymbolTable {["y" := Entry (Sym FLOAT) false]}
                                  (Some outer_scope))
  = check_symbol "x" inner_scope.
Proof.
  apply (add_symbol_frame "y" (Sym FLOAT) false inner_scope); [reflexivity|].
  discriminate.
Defined.

(** A scope entered and left again: inside, any name can be declared,
    also one that is bound (even const) further out, and resolves to the
    new entry while every other name resolves as outside; leaving gives
    back the analyzer as it was before entering, the declaration gone.
    Leaving at the outermost scope does nothing. *)
Theorem scope_round_trip s name t c :
  ∃ inside,
    (let* _ := enter_scope in scope_add name t c) s = (Ok (), inside)
    ∧ check_symbol name (current_scope inside) = Ok (Entry t c)
    ∧ (∀ other, other ≠ name →
         check_symbol other (current_scope inside)
         = check_symbol other (current_scope s))
    ∧ exit_scope inside = (Ok (), s)
    ∧ (parent (current_scope s) = None → exit_scope s = (Ok (), s)).
Proof.
  destruct s as [[tbl up] g f].
  unfold bind, scope_add, add_symbol, enter_scope.
  cbn [current_scope table parent code_gen functions snd].
  rewrite lookup_empty. eexists. split; [reflexivity|].
  cbn [fst snd current_scope check_symbol table parent].
  split; [by rewrite lookup_insert_eq|].
  split; [|split; [reflexivity|]].
  - intros other Hne. rewrite lookup_insert_ne by done.
    rewrite lookup_empty. reflexivity.
  - intros Hup. simpl in Hup. subst up. reflexivity.
Qed.
(** ** Operators *)



Lemma analyze_binary_op_pure l r op s : (analyze_binary_op l r op s).2 = s.
Proof.
  unfold analyze_binary_op, raise, ret.
  repeat match goal with |- context [if ?b then _ else _] => destruct b end;
    reflexivity.
Qed.

(** What a binary operator that is accepted returns: an arithmetic one
    had two operands that are INT or FLOAT and returns FLOAT when one of
    them is FLOAT, INT otherwise; every other accepted operator returns
    BOOL.  The analyzer is not changed. *)
Theorem binary_result_type l r op s t s' :
  analyze_binary_op l r op s = (Ok t, s') →
  s' = s
  ∧ if op_in op arithmetic_ops then
      numeric l = true ∧ numeric r = true
      ∧ t = (if type_is l FLOAT || type_is r FLOAT then Sym FLOAT else Sym INT)
    else t = Sym BOOL.
Proof.
  intros H. split.
  - pose proof (analyze_binary_op_pure l r op s) as Hp. by rewrite H in Hp.
  - revert H. unfold analyze_binary_op, arithmetic_ops, raise, ret.
    destruct (op_in op ["+"; "-"; "*"; "/"]).
    + destruct (numeric l), (numeric r); simpl; try discriminate.
      destruct (type_is l FLOAT || type_is r FLOAT); by intros [= <- _].
    + repeat match goal with |- context [if ?b then _ else _] => destruct b end;
        try discriminate; by intros [= <- _].
Qed.

Lemma binary_result_type_witness :
  new_analyzer = new_analyzer
  ∧ if op_in (PStr "+") arithmetic_ops then
      numeric (Some (Sym INT)) = true ∧ numeric (Some (Sym FLOAT)) = true
      ∧ Sym FLOAT = (if type_is (Some (Sym INT)) FLOAT
                        || type_is (Some (Sym FLOAT)) FLOAT
                     then Sym FLOAT else Sym INT)
    else Sym FLOAT = Sym BOOL.
Proof.
  apply (binary_result_type (Some (Sym INT)) (Some (Sym FLOAT)) (PStr "+")
           new_analyzer (Sym FLOAT) new_analyzer).
  reflexivity.
Defined.
(** Relational operators compare any two operands of one and the same
    type, arrays and untyped ([None]) operands included, and INT with
    FLOAT; two different types of which one is an array or function type
    end in the interpreter's own [TypeError] (the set display cannot
    hash a dataclass instance), not in a [ValueError]; every other pair
    is a [ValueError]. *)
Theorem relational_operands op l r s :
  op ∈ relational_ops →
  analyze_binary_op l r (PStr op) s =
    if bool_decide (l = r) then (Ok (Sym BOOL), s)
    else if unhashable l || unhashable r then
      (Raise (PyTypeError "unhashable type"), s)
    else if bool_decide (l = Some (Sym INT) ∧ r = Some (Sym FLOAT))
            || bool_decide (l = Some (Sym FLOAT) ∧ r = Some (Sym INT))
    then (Ok (Sym BOOL), s)
    else (Raise (ValueError (RelationalTypeMismatch (PStr op))), s).
Proof.
  intros Hop. unfold analyze_binary_op.
  assert (Ha : op_in (PStr op) ["+"; "-"; "*"; "/"] = false
               ∧ op_in (PStr op) ["<"; ">"; "<="; ">="; "=="; "!="] = true).
  { unfold relational_ops in Hop.
    repeat (apply elem_of_cons in Hop as [->|Hop]; [by split|]).
    by apply elem_of_nil in Hop. }
  destruct Ha as [-> ->].
  destruct (bool_decide (l = r)); [reflexivity|]. simpl.
  destruct (unhashable l || unhashable r); [reflexivity|].
  unfold type_is.
  replace (bool_decide (l = Some (Sym INT) ∧ r = Some (Sym FLOAT)))
    with (bool_decide (l = Some (Sym INT)) && bool_decide (r = Some (Sym FLOAT)))
    by (symmetry; apply bool_decide_and).
  replace (bool_decide (l = Some (Sym FLOAT) ∧ r = Some (Sym INT)))
    with (bool_decide (l = Some (Sym FLOAT)) && bool_decide (r = Some (Sym INT)))
    by (symmetry; apply bool_decide_and).
  match goal with |- context [if ?b then _ else _] => destruct b end;
    reflexivity.
Qed.

Lemma relational_operands_witness :
  analyze_binary_op None None (PStr "==") new_analyzer
  = (Ok (Sym BOOL), new_analyzer)
  ∧ analyze_binary_op (Some (ArrayType INT 5)) (Some (ArrayType INT 6))
      (PStr "==") new_analyzer
    = (Raise (PyTypeError "unhashable type"), new_analyzer)
  ∧ analyze_binary_op (Some (Sym CHAR)) (Some (Sym INT)) (PStr "<") new_analyzer
    = (Raise (ValueError (RelationalTypeMismatch (PStr "<"))), new_analyzer).
Proof.
  split; [|split].
  - apply (relational_operands "==" None None).
    unfold relational_ops. repeat constructor.
  - apply (relational_operands "==" (Some (ArrayType INT 5))
             (Some (ArrayType INT 6))).
    unfold relational_ops. repeat constructor.
  - apply (relational_operands "<" (Some (Sym CHAR)) (Some (Sym INT))).
    unfold relational_ops. repeat constructor.
Defined.

(** A [binary_op] node whose two operands evaluated, left then right: if
    the type rule accepts the operator, one instruction
    [(op, left, right, temp)] with a fresh temporary is appended after
    the instructions of the operands and the node yields that temporary
    with the result type; if the rule raises, the node raises the same
    and the instructions of both operands stay in the log. *)
Theorem binary_op_emission d l r op s lref lty s1 rref rty s2 :
  get "type" d = Some (PStr "binary_op") →
  get "left" d = Some l →
  get "right" d = Some r →
  get "op" d = Some op →
  generate_code l s = (Ok (lref, lty), s1) →
  generate_code r s1 = (Ok (rref, rty), s2) →
  let g := code_gen s2 in
  let temp := PStr (temp_name (temp_count g)) in
  generate_code (PDict d) s =
    match (analyze_binary_op lty rty op s2).1 with
    | Ok t =>
        (Ok (temp, Some t),
         with_gen s2 (mkGen (code g ++ [(op, lref, rref, temp)])
                            (temp_count g + 1)%nat (label_count g)))
    | Raise e => (Raise e, s2)
    end.
Proof.
  intros Htag Hl Hr Hop Hle Hre g temp.
  enter_branch Htag. repeat run_step.
  unfold bind at 1.
  pose proof (analyze_binary_op_pure lty rty op s2) as Hp.
  destruct (analyze_binary_op lty rty op s2) as [[t|e] s3]; simpl in *; subst s3.
  - repeat run_step. reflexivity.
  - reflexivity.
Qed.

Lemma binary_op_emission_witness :
  generate_code (binary "+" (literal (PInt 5)) (literal (PFloat (3 # 1))))
                new_analyzer
  = (Ok (PStr "t0", Some (Sym FLOAT)),
     with_gen new_analyzer
       (mkGen [(PStr "+", PInt 5, PFloat (3 # 1), PStr "t0")] 1 0))
  ∧ generate_code (binary "+" (binary "*" (literal (PInt 2)) (literal (PInt 3)))
                              (literal (PBool true)))
                  new_analyzer
    = (Raise (ValueError (InvalidOperands (PStr "+"))),
       with_gen new_analyzer
         (mkGen [(PStr "*", PInt 2, PInt 3, PStr "t0")] 1 0)).
Proof.
  split.
  - exact (binary_op_emission
             [("type", PStr "binary_op"); ("op", PStr "+");
              ("left", literal (PInt 5)); ("right", literal (PFloat (3 # 1)))]
             _ _ _ new_analyzer _ _ _ _ _ _
             eq_refl eq_refl eq_refl eq_refl eq_refl eq_refl).
  - exact (binary_op_emission
             [("type", PStr "binary_op"); ("op", PStr "+");
              ("left", binary "*" (literal (PInt 2)) (literal (PInt 3)));
              ("right", literal (PBool true))]
             _ _ _ new_analyzer _ _ _ _ _ _
             eq_refl eq_refl eq_refl eq_refl eq_refl eq_refl).
Defined.

Lemma analyze_unary_op_pure t op s : (analyze_unary_op t op s).2 = s.
Proof.
  unfold analyze_unary_op, raise, ret.
  repeat match goal with |- context [if ?b then _ else _] => destruct b end;
    reflexivity.
Qed.

(** A [unary_op] node whose operand evaluated: [!] wants a BOOL and gives
    BOOL, [-] wants INT or FLOAT and gives the type of its operand, any
    other symbol is refused; when accepted, one instruction
    [(op, operand, None, temp)] is appended and the node yields the fresh
    temporary; when refused, the instructions of the operand stay. *)
Theorem unary_op_emission d x op s xref xty s1 :
  get "type" d = Some (PStr "unary_op") →
  get "operand" d = Some x →
  get "op" d = Some (PStr op) →
  generate_code x s = (Ok (xref, xty), s1) →
  let g := code_gen s1 in
  let temp := PStr (temp_name (temp_count g)) in
  let emitted_as t :=
    (Ok (temp, Some (Sym t)),
     with_gen s1 (mkGen (code g ++ [(PStr op, xref, PNone, temp)])
                        (temp_count g + 1)%nat (label_count g))) in
  generate_code (PDict d) s =
    if String.eqb op "!" then
      if bool_decide (xty = Some (Sym BOOL)) then emitted_as BOOL
      else (Raise (ValueError InvalidNotOperand), s1)
    else if String.eqb op "-" then
      if bool_decide (xty = Some (Sym INT)) then emitted_as INT
      else if bool_decide (xty = Some (Sym FLOAT)) then emitted_as FLOAT
      else (Raise (ValueError InvalidNegOperand), s1)
    else (Raise (ValueError (UnknownUnaryOperator (PStr op))), s1).
Proof.
  intros Htag Hx Hop Hxe g temp emitted_as.
  enter_branch Htag. repeat run_step.
  unfold bind at 1, analyze_unary_op, numeric, type_is. cbn [str_eq].
  destruct (String.eqb op "!").
  - destruct (bool_decide_reflect (xty = Some (Sym BOOL))) as [->|]; simpl;
      [|reflexivity]. repeat run_step. reflexivity.
  - destruct (String.eqb op "-"); [|reflexivity].
    destruct (bool_decide_reflect (xty = Some (Sym INT))) as [->|]; simpl.
    + repeat run_step. reflexivity.
    + destruct (bool_decide_reflect (xty = Some (Sym FLOAT))) as [->|]; simpl;
        [|reflexivity]. repeat run_step. reflexivity.
Qed.

Lemma unary_op_emission_witness :
  generate_code (PDict (unary "-" (literal (PFloat (5 # 2))))) new_analyzer
  = (Ok (PStr "t0", Some (Sym FLOAT)),
     with_gen new_analyzer
       (mkGen [(PStr "-", PFloat (5 # 2), PNone, PStr "t0")] 1 0))
  ∧ generate_code (PDict (unary "!" (literal (PInt 1)))) new_analyzer
    = (Raise (ValueError InvalidNotOperand), new_analyzer).
Proof.
  split.
  - exact (unary_op_emission (unary "-" (literal (PFloat (5 # 2)))) _ "-"
             new_analyzer _ _ _ eq_refl eq_refl eq_refl eq_refl).
  - exact (unary_op_emission (unary "!" (literal (PInt 1))) _ "!"
             new_analyzer _ _ _ eq_refl eq_refl eq_refl eq_refl).
Defined.


(** ** Reading an array element *)

(** An [array_access] node resolves the name before it looks at the
    index: an undeclared name raises "Variable '<name>' not declared"
    with nothing evaluated.  Once the index has evaluated, a name that
    is not an array raises "Array access error: '<name>' is not an
    array" and an index that is not exactly INT "Array access error:
    Array index must be integer", the instructions of the index staying
    in the log; otherwise one [arrayload(name, index, temp)] is appended
    and the node yields the fresh temporary with the base type. *)
Theorem array_access_read d name index s :
  get "type" d = Some (PStr "array_access") →
  get "array_name" d = Some (PStr name) →
  get "index" d = Some index →
  generate_code (PDict d) s =
    match check_symbol name (current_scope s) with
    | Raise e => (Raise e, s)
    | Ok _ =>
        match generate_code index s with
        | (Raise e, s1) => (Raise e, s1)
        | (Ok (iref, ity), s1) =>
            match check_symbol name (current_scope s1) with
            | Raise (ValueError m) => (Raise (ValueError (ArrayAccessError m)), s1)
            | Raise e => (Raise e, s1)
            | Ok en =>
                match type en with
                | ArrayType base _ =>
                    if bool_decide (ity = Some (Sym INT)) then
                      let g := code_gen s1 in
                      let temp := PStr (temp_name (temp_count g)) in
                      (Ok (temp, Some (Sym base)),
                       with_gen s1
                         (mkGen (code g ++ [(PStr "arrayload", PStr name, iref, temp)])
                                (temp_count g + 1)%nat (label_count g)))
                    else (Raise (ValueError (ArrayAccessError IndexNotInteger)), s1)
                | _ => (Raise (ValueError (ArrayAccessError (NotAnArray name))), s1)
                end
            end
        end
    end.
Proof.
  intros Htag Hname Hidx. enter_branch Htag. repeat run_step.
  unfold bind at 1, scope_check.
  destruct (check_symbol name (current_scope s)) as [en0|e0]; [|reflexivity].
  unfold bind at 1.
  destruct (generate_code index s) as [[[iref ity]|e] s1]; [|reflexivity].
  unfold bind at 1, analyze_array_access, reraise, bind, scope_check, type_is.
  destruct (check_symbol name (current_scope s1)) as [en|[m| | |]];
    try reflexivity.
  destruct (type en); try reflexivity.
  destruct (bool_decide (ity = Some (Sym INT))); simpl; [|reflexivity].
  repeat run_step. reflexivity.
Qed.

Lemma array_access_read_witness :
  generate_code (PDict (array_access "a" (binary "+" (variable "x") (literal (PInt 1)))))
                scope_a_x
  = (Ok (PStr "t1", Some (Sym INT)),
     with_gen scope_a_x
       (mkGen [(PStr "+", PStr "x", PInt 1, PStr "t0");
               (PStr "arrayload", PStr "a", PStr "t0", PStr "t1")] 2 0))
  ∧ generate_code (PDict (array_access "b" (binary "+" (variable "x") (literal (PInt 1)))))
                  scope_a_x
    = (Raise (ValueError (NotDeclared "b")), scope_a_x)
  ∧ generate_code (PDict (array_access "x" (binary "+" (variable "x") (literal (PInt 1)))))
                  scope_a_x
    = (Raise (ValueError (ArrayAccessError (NotAnArray "x"))),
       with_gen scope_a_x
         (mkGen [(PStr "+", PStr "x", PInt 1, PStr "t0")] 1 0)).
Proof.
  split; [|split].
  - exact (array_access_read
             (array_access "a" (binary "+" (variable "x") (literal (PInt 1))))
             "a" _ scope_a_x eq_refl eq_refl eq_refl).
  - exact (array_access_read
             (array_access "b" (binary "+" (variable "x") (literal (PInt 1))))
             "b" _ scope_a_x eq_refl eq_refl eq_refl).
  - exact (array_access_read
             (array_access "x" (binary "+" (variable "x") (literal (PInt 1))))
             "x" _ scope_a_x eq_refl eq_refl eq_refl).
Defined.

(** ** Conditionals *)

(** An [if] node whose condition evaluated to a BOOL and whose blocks
    walk to the end.  Two labels are taken, else-label first, whether or
    not there is an else-block.  Without else-block the log gets
    [ifnot cond, _, else], the then-block, [label else].  With one it
    gets [ifnot cond, _, else], the then-block, [goto end], [label else],
    the else-block, [label end]. *)
Theorem if_emission d cond then_block s cref s1 r s2 :
  get "type" d = Some (PStr "if") →
  get "condition" d = Some cond →
  get "then_block" d = Some then_block →
  generate_code cond s = (Ok (cref, Some (Sym BOOL)), s1) →
  let n := label_count (code_gen s1) in
  let else_label := PStr (label_name n) in
  let end_label := PStr (label_name (n + 1)) in
  let s1' := with_gen s1
               (mkGen (code (code_gen s1) ++ [(PStr "ifnot", cref, PNone, else_label)])
                      (temp_count (code_gen s1)) (n + 1 + 1)%nat) in
  generate_code then_block s1' = (Ok r, s2) →
  (get "else_block" d = None →
     generate_code (PDict d) s
     = (Ok (PNone, None),
        with_gen s2 (emit (PStr "label") else_label PNone PNone (code_gen s2))))
  ∧ (∀ else_block r' s3,
       get "else_block" d = Some else_block →
       generate_code else_block
         (with_gen s2 (emit (PStr "label") else_label PNone PNone
                         (emit (PStr "goto") PNone PNone end_label (code_gen s2))))
       = (Ok r', s3) →
       generate_code (PDict d) s
       = (Ok (PNone, None),
          with_gen s3 (emit (PStr "label") end_label PNone PNone (code_gen s3)))).
Proof.
  intros Htag Hcond Hthen Hc n else_label end_label s1' Ht.
  split.
  - intros Helse. enter_branch Htag. repeat run_step.
    change (negb (type_is (Some (Sym BOOL)) BOOL)) with false. cbv iota.
    unfold has_key. rewrite Helse. repeat run_step.
    fold n else_label s1'. repeat run_step. reflexivity.
  - intros else_block r' s3 Helse He. enter_branch Htag. repeat run_step.
    change (negb (type_is (Some (Sym BOOL)) BOOL)) with false. cbv iota.
    unfold has_key. rewrite Helse. repeat run_step.
    fold n else_label end_label s1'. repeat run_step. reflexivity.
Qed.

Lemma if_emission_witness :
  generate_code
    (PDict (if_ (binary ">" (variable "x") (literal (PInt 0)))
                (PDict (assign "x" (literal (PInt 1))))
                [("else_block", PDict (assign "x" (literal (PInt 2))))]))
    scope_x_y
  = (Ok (PNone, None),
     with_gen scope_x_y
       (mkGen [(PStr ">", PStr "x", PInt 0, PStr "t0");
               (PStr "ifnot", PStr "t0", PNone, PStr "L0");
               (PStr "=", PInt 1, PNone, PStr "x");
               (PStr "goto", PNone, PNone, PStr "L1");
               (PStr "label", PStr "L0", PNone, PNone);
               (PStr "=", PInt 2, PNone, PStr "x");
               (PStr "label", PStr "L1", PNone, PNone)] 1 2)).
Proof.
  exact (proj2 (if_emission
                  (if_ (binary ">" (variable "x") (literal (PInt 0)))
                       (PDict (assign "x" (literal (PInt 1))))
                       [("else_block", PDict (assign "x" (literal (PInt 2))))])
                  _ _ scope_x_y _ _ _ _ eq_refl eq_refl eq_refl eq_refl eq_refl)
           _ _ _ eq_refl eq_refl).
Defined.

(** A condition that is not BOOL.  An [if] raises "If condition must be
    boolean" before it takes any label: the analyzer is as the condition
    left it.  A [while] has by then taken its two labels and appended
    [label start]: they stay, followed by the instructions of the
    condition. *)
Theorem condition_not_boolean d cond s :
  get "condition" d = Some cond →
  (get "type" d = Some (PStr "if") →
   ∀ cref cty s1,
     generate_code cond s = (Ok (cref, cty), s1) →
     cty ≠ Some (Sym BOOL) →
     generate_code (PDict d) s = (Raise (ValueError IfConditionNotBoolean), s1))
  ∧ (get "type" d = Some (PStr "while") →
     let n := label_count (code_gen s) in
     let s0 := with_gen s
                 (mkGen (code (code_gen s)
                           ++ [(PStr "label", PStr (label_name n), PNone, PNone)])
                        (temp_count (code_gen s)) (n + 1 + 1)%nat) in
     ∀ cref cty s1,
       generate_code cond s0 = (Ok (cref, cty), s1) →
       cty ≠ Some (Sym BOOL) →
       generate_code (PDict d) s
       = (Raise (ValueError WhileConditionNotBoolean), s1)).
Proof.
  intros Hcond. split.
  - intros Htag cref cty s1 Hc Hty. enter_branch Htag. repeat run_step.
    unfold type_is. rewrite bool_decide_eq_false_2 by done. reflexivity.
  - intros Htag n s0 cref cty s1 Hc Hty. enter_branch Htag. repeat run_step.
    fold n s0. repeat run_step.
    unfold type_is. rewrite bool_decide_eq_false_2 by done. reflexivity.
Qed.

Lemma condition_not_boolean_witness :
  generate_code (PDict (if_ (literal (PInt 1)) (block []) [])) new_analyzer
  = (Raise (ValueError IfConditionNotBoolean), new_analyzer)
  ∧ generate_code (PDict (while_ (literal (PInt 1)) (block []))) new_analyzer
    = (Raise (ValueError WhileConditionNotBoolean),
       with_gen new_analyzer
         (mkGen [(PStr "label", PStr "L0", PNone, PNone)] 0 2)).
Proof.
  split.
  - apply (proj1 (condition_not_boolean
                    (if_ (literal (PInt 1)) (block []) []) _ new_analyzer eq_refl)
             eq_refl (PInt 1) (Some (Sym INT)) new_analyzer eq_refl).
    discriminate.
  - apply (proj2 (condition_not_boolean
                    (while_ (literal (PInt 1)) (block [])) _ new_analyzer eq_refl)
             eq_refl (PInt 1) (Some (Sym INT))); [reflexivity | discriminate].
Defined.

(** ** Leaves *)

(** A [variable] node yields its name and the declared type of the
    innermost binding, or raises "Variable '<name>' not declared"; a
    [literal] node yields its value and BOOL for a bool, INT for an int,
    FLOAT for a float, CHAR for a string of one character (of one or
    more bytes), and raises for anything else ([None], longer or empty
    strings, lists, dicts).
    Neither touches the analyzer, returning or raising. *)
Theorem leaves d s :
  (get "type" d = Some (PStr "variable") →
   ∀ name, get "name" d = Some (PStr name) →
     generate_code (PDict d) s =
       match check_symbol name (current_scope s) with
       | Ok en => (Ok (PStr name, Some (type en)), s)
       | Raise e => (Raise e, s)
       end)
  ∧ (get "type" d = Some (PStr "literal") →
     ∀ value, get "value" d = Some value →
       generate_code (PDict d) s =
         match value with
         | PBool _ => (Ok (value, Some (Sym BOOL)), s)
         | PInt _ => (Ok (value, Some (Sym INT)), s)
         | PFloat _ => (Ok (value, Some (Sym FLOAT)), s)
         | PStr c =>
             if (len c =? 1)%nat then (Ok (value, Some (Sym CHAR)), s)
             else (Raise (ValueError (InvalidLiteral value)), s)
         | _ => (Raise (ValueError (InvalidLiteral value)), s)
         end).
Proof.
  split.
  - intros Htag name Hname. enter_branch Htag. repeat run_step.
    unfold bind, scope_check.
    destruct (check_symbol name (current_scope s)); reflexivity.
  - intros Htag value Hvalue. enter_branch Htag. repeat run_step.
    destruct value as [ | | | |c| | ]; try reflexivity.
    unfold literal_type. destruct (len c =? 1)%nat; reflexivity.
Qed.

Lemma leaves_witness :
  generate_code (literal (PBool true)) new_analyzer
  = (Ok (PBool true, Some (Sym BOOL)), new_analyzer)
  ∧ generate_code (literal (PStr "ab")) new_analyzer
    = (Raise (ValueError (InvalidLiteral (PStr "ab"))), new_analyzer)
  ∧ generate_code (literal (PStr "é")) new_analyzer
    = (Ok (PStr "é", Some (Sym CHAR)), new_analyzer)
  ∧ generate_code (variable "y") scope_x_y
    = (Ok (PStr "y", Some (Sym FLOAT)), scope_x_y).
Proof.
  split; [|split; [|split]].
  - exact (proj2 (leaves [("type", PStr "literal"); ("value", PBool true)]
                    new_analyzer) eq_refl _ eq_refl).
  - exact (proj2 (leaves [("type", PStr "literal"); ("value", PStr "ab")]
                    new_analyzer) eq_refl _ eq_refl).
  - exact (proj2 (leaves [("type", PStr "literal"); ("value", PStr "é")]
                    new_analyzer) eq_refl _ eq_refl).
  - exact (proj1 (leaves [("type", PStr "variable"); ("name", PStr "y")]
                    scope_x_y) eq_refl _ eq_refl).
Defined.

(** ** Function calls *)

Lemma first_mismatch_none i tys (ps : list SymbolInfo) :
  length tys = length ps →
  first_mismatch i tys ps = None →
  tys = map Some ps.
Proof.
  revert i ps. induction tys as [|a tys IH]; intros i [|p ps] Hlen;
    try discriminate; [reflexivity|].
  simpl. destruct (bool_decide_reflect (a = Some p)) as [->|]; simpl;
    [|discriminate].
  intros H. f_equal. apply (IH (S i)); [by injection Hlen|exact H].
Qed.

Lemma first_mismatch_some i tys (ps : list SymbolInfo) k :
  first_mismatch i tys ps = Some k →
  ∃ j a p, k = (i + j)%nat
    ∧ take j tys = map Some (take j ps)
    ∧ tys !! j = Some a ∧ ps !! j = Some p ∧ a ≠ Some p.
Proof.
  revert i ps. induction tys as [|a tys IH]; intros i [|p ps]; try discriminate.
  simpl. destruct (bool_decide_reflect (a = Some p)) as [->|Hne]; simpl.
  - intros H. destruct (IH _ _ H) as (j & a' & p' & -> & Ht & Ha & Hp & Hd).
    exists (S j), a', p'. simpl. rewrite Ht.
    repeat split; [lia|assumption..].
  - intros [= <-]. exists 0%nat, a, p. repeat split; [lia|assumption].
Qed.

(** A call is accepted exactly when the name is in the function table
    and the argument types are, one for one and in number, the declared
    parameter types; the type returned is then the declared return type,
    and the analyzer is as it was.  An argument that has no type
    ([None]) is never accepted. *)
Theorem call_accepted_iff f tys s rt s' :
  analyze_function_call f tys s = (Ok rt, s')
  ↔ s' = s ∧ ∃ fi, functions s !! f = Some fi
                 ∧ tys = map Some (params fi) ∧ rt = return_type fi.
Proof.
  split.
  - unfold analyze_function_call.
    destruct (functions s !! f) as [fi|]; [|discriminate].
    destruct (Nat.eqb_spec (length tys) (length (params fi))) as [Hlen|];
      simpl; [|discriminate].
    destruct (first_mismatch 0 tys (params fi)) eqn:Hm; [discriminate|].
    intros [= <- <-]. split; [reflexivity|]. exists fi.
    split; [reflexivity|]. split; [|reflexivity].
    by apply (first_mismatch_none 0).
  - intros (-> & fi & Hf & -> & ->). by apply analyze_function_call_ok.
Qed.

(** How a call to a declared function is refused.  The number of
    arguments is compared first: a wrong number is reported with the
    number expected, whatever the types.  With the right number, the
    position reported is the place, counted from 1, of the first
    argument whose type is not the parameter's: all arguments before it
    have the declared types. *)
Theorem call_refused f tys s fi :
  functions s !! f = Some fi →
  (length tys ≠ length (params fi) →
   analyze_function_call f tys s
   = (Raise (ValueError (WrongArgumentCount f (length (params fi)))), s))
  ∧ (∀ e, length tys = length (params fi) →
          (analyze_function_call f tys s).1 = Raise e →
          ∃ j a p, e = ValueError (ArgumentTypeMismatch (S j) f)
            ∧ take j tys = map Some (take j (params fi))
            ∧ tys !! j = Some a ∧ params fi !! j = Some p ∧ a ≠ Some p).
Proof.
  intros Hf. unfold analyze_function_call. rewrite Hf. split.
  - intros Hlen. apply Nat.eqb_neq in Hlen. by rewrite Hlen.
  - intros e Hlen. rewrite Hlen, Nat.eqb_refl. simpl.
    destruct (first_mismatch 0 tys (params fi)) as [k|] eqn:Hm; [|discriminate].
    intros [= <-].
    destruct (first_mismatch_some _ _ _ _ Hm) as (j & a & p & -> & H).
    by exists j, a, p.
Qed.

Lemma call_refused_witness :
  analyze_function_call "pow" [Some (Sym FLOAT)] with_pow
  = (Raise (ValueError (WrongArgumentCount "pow" 2)), with_pow).
Proof.
  refine (proj1 (call_refused "pow" [Some (Sym FLOAT)] with_pow
                   (FuncInfo (Sym FLOAT) [Sym FLOAT; Sym FLOAT]) _) _).
  - vm_compute. reflexivity.
  - simpl. lia.
Defined.

Lemma for_each_cons {A} (f : pyval → M A) x xs :
  for_each f (x :: xs)
  = bind (f x) (λ r, bind (for_each f xs) (λ rs, ret (r :: rs))).
Proof. reflexivity. Qed.

Lemma for_each_app {A} (f : pyval → M A) xs ys s rs s1 :
  for_each f xs s = (Ok rs, s1) →
  for_each f (xs ++ ys) s
  = match for_each f ys s1 with
    | (Ok rs', s2) => (Ok (rs ++ rs'), s2)
    | (Raise e, s2) => (Raise e, s2)
    end.
Proof.
  revert s rs. induction xs as [|x xs IH]; intros s rs.
  - intros [= <- <-]. simpl. by destruct (for_each f ys s) as [[]].
  - rewrite <- app_comm_cons, !for_each_cons. unfold bind, ret.
    destruct (f x s) as [[r|e] s0]; [|discriminate].
    destruct (for_each f xs s0) as [[rs0|e] s0'] eqn:E; [|discriminate].
    intros [= <- <-]. rewrite (IH _ _ E).
    by destruct (for_each f ys _) as [[]].
Qed.

(** The arguments of a call are evaluated from left to right, and the
    first one that raises ends the call: the arguments after it are not
    evaluated, the callee is not looked up (the node need not even name
    one), and what the earlier arguments emitted stays in the log. *)
Theorem call_argument_raises d xs x ys s rs s1 e s2 :
  get "type" d = Some (PStr "function_call") →
  get "args" d = Some (PList (xs ++ x :: ys)) →
  for_each generate_code xs s = (Ok rs, s1) →
  generate_code x s1 = (Raise e, s2) →
  generate_code (PDict d) s = (Raise e, s2).
Proof.
  intros Htag Hargs Hxs Hx. enter_branch Htag. repeat run_step.
  unfold bind at 1. rewrite (for_each_app _ _ _ _ _ _ Hxs).
  cbn [for_each]. unfold bind at 1. rewrite Hx. reflexivity.
Qed.

Lemma call_argument_raises_witness :
  generate_code
    (PDict [("type", PStr "function_call");
            ("args", PList ([binary "+" (literal (PInt 1)) (literal (PInt 2))]
                            ++ variable "z"
                            :: [binary "*" (literal (PInt 3)) (literal (PInt 4))]))])
    with_pow
  = (Raise (ValueError (NotDeclared "z")),
     with_gen with_pow (mkGen [(PStr "+", PInt 1, PInt 2, PStr "t0")] 1 0)).
Proof.
  apply (call_argument_raises _
           [binary "+" (literal (PInt 1)) (literal (PInt 2))] (variable "z")
           [binary "*" (literal (PInt 3)) (literal (PInt 4))]
           with_pow [(PStr "t0", Some (Sym INT))]
           (with_gen with_pow (mkGen [(PStr "+", PInt 1, PInt 2, PStr "t0")] 1 0)));
    vm_compute; reflexivity.
Defined.

(** A call that is refused after its arguments evaluated raises what
    [analyze_function_call] raised; no [call] instruction is appended
    and no temporary is taken, but the instructions of all the
    arguments are in the log. *)
Theorem refused_call_emits_no_call d xs f s rs s1 e :
  get "type" d = Some (PStr "function_call") →
  get "args" d = Some (PList xs) →
  get "func_name" d = Some (PStr f) →
  for_each generate_code xs s = (Ok rs, s1) →
  (analyze_function_call f (map snd rs) s1).1 = Raise e →
  generate_code (PDict d) s = (Raise e, s1).
Proof.
  intros Htag Hargs Hname Hxs He. enter_branch Htag. repeat run_step.
  unfold bind at 1. revert He. unfold analyze_function_call.
  destruct (functions s1 !! f) as [fi|]; [|by intros [= <-]].
  destruct (negb _); [by intros [= <-]|].
  destruct (first_mismatch _ _ _); [by intros [= <-]|discriminate].
Qed.

Lemma refused_call_emits_no_call_witness :
  generate_code
    (PDict (call "pow" [binary "+" (literal (PFloat (1 # 1))) (literal (PInt 2));
                        literal (PBool true)]))
    with_pow
  = (Raise (ValueError (ArgumentTypeMismatch 2 "pow")),
     with_gen with_pow
       (mkGen [(PStr "+", PFloat (1 # 1), PInt 2, PStr "t0")] 1 0)).
Proof.
  apply (refused_call_emits_no_call _
           [binary "+" (literal (PFloat (1 # 1))) (literal (PInt 2));
            literal (PBool true)] "pow" with_pow
           [(PStr "t0", Some (Sym FLOAT)); (PBool true, Some (Sym BOOL))]);
    vm_compute; reflexivity.
Defined.

(** ** The parser: where it stops, what it reports, that it ends *)

Module ParserFacts.
Import Sintax SintaxVocabulary.
Local Open Scope nat_scope.

Lemma in_range toks i : type (tok_at toks i) ≠ EOF → i < length toks.
Proof.
  unfold tok_at. destruct (toks !! i) eqn:H; [|done].
  intros _. by apply lookup_lt_Some in H.
Qed.

Lemma lands_weaken {A} toks lo lo' (r : result A) :
  lo ≤ lo' → lands toks lo' r → lands toks lo r.
Proof.
  intros Hlo. destruct r; simpl; [|done..].
  intros (j & -> & Hj). exists j. split; [done|lia].
Qed.

Lemma complains_weaken {A} toks lo lo' allowed allowed' (r : result A) :
  lo ≤ lo' → allowed' ⊆ allowed →
  complains toks lo' allowed' r → complains toks lo allowed r.
Proof.
  intros Hlo Hal. destruct r; simpl; [done| |done].
  intros (j & x & Hj & -> & Hx & Hw). exists j, x.
  split; [lia|]. split; [reflexivity|]. split; [by apply Hal|done].
Qed.

(** One step of a method body: what holds of [m], and of [k] from where
    [m] stopped, holds of [m] followed by [k]. *)
Lemma step {A B} toks (m : P A) (k : A → P B) p lo1 lo lo_err allowed :
  lands toks lo1 (m p) → complains toks lo_err allowed (m p) →
  (∀ a j, lo1 ≤ j ≤ length toks → m p = Parsed a (at_pos toks j) →
     lands toks lo (k a (at_pos toks j))
     ∧ complains toks lo_err allowed (k a (at_pos toks j))) →
  lands toks lo (pbind m k p) ∧ complains toks lo_err allowed (pbind m k p).
Proof.
  unfold pbind. destruct (m p) as [a p'| |]; simpl; [|done..].
  intros (j & -> & Hj) _ Hk. by apply Hk.
Qed.

Lemma name_inj t1 t2 : name t1 = name t2 → t1 = t2.
Proof. destruct t1, t2; simpl; intros H; try reflexivity; discriminate H. Qed.

Lemma eat_spec toks i tt allowed :
  i ≤ length toks → tt ≠ EOF →
  type (tok_at toks i) = tt
  ∨ (name tt ∈ allowed ∧ name tt ≠ "number, identifier, or '('") →
  lands toks (S i) (eat tt (at_pos toks i))
  ∧ complains toks i allowed (eat tt (at_pos toks i)).
Proof.
  intros Hi Heof Hcase. unfold eat, error_expected.
  change (current_token (at_pos toks i)) with (tok_at toks i).
  destruct (bool_decide_reflect (type (tok_at toks i) = tt)) as [Heq|Hne].
  - split; [|done]. simpl. exists (S i).
    replace (i + 1) with (S i) by lia. split; [reflexivity|].
    assert (i < length toks) by (apply in_range; congruence). lia.
  - split; [done|]. destruct Hcase as [|[Hin Hnot]]; [done|].
    simpl. exists i, (name tt).
    split; [lia|]. split; [reflexivity|]. split; [done|].
    unfold wanted. apply String.eqb_neq in Hnot. rewrite Hnot.
    apply String.eqb_neq. intros H. by apply name_inj in H.
Qed.

Lemma cur_at {A} toks i (k : Token → P A) :
  pbind cur k (at_pos toks i) = k (tok_at toks i) (at_pos toks i).
Proof. reflexivity. Qed.

Lemma factor_error toks i allowed :
  is_in (type (tok_at toks i)) [INTEGER; FLOAT; IDENTIFIER; LPAREN] = false →
  "number, identifier, or '('" ∈ allowed →
  complains (A:=ASTNode) toks i allowed
    (error_expected "number, identifier, or '('" (at_pos toks i)).
Proof.
  intros Hno Hin. simpl. exists i, "number, identifier, or '('".
  split; [lia|]. split; [reflexivity|]. split; done.
Qed.

Ltac expression_error := unfold expression_errors; repeat constructor.

(** What [factor], [term], [expr] and the two loops do, whatever the
    fuel: a parse moves forward on the same tokens and stays within
    them, an error is one of the two an expression can raise. *)
Lemma expression_spec n : ∀ toks i,
  i ≤ length toks →
  (lands toks (S i) (factor n (at_pos toks i))
   ∧ complains toks i expression_errors (factor n (at_pos toks i)))
  ∧ (lands toks (S i) (term n (at_pos toks i))
     ∧ complains toks i expression_errors (term n (at_pos toks i)))
  ∧ (∀ node, lands toks i (term_loop n node (at_pos toks i))
             ∧ complains toks i expression_errors (term_loop n node (at_pos toks i)))
  ∧ (lands toks (S i) (expr n (at_pos toks i))
     ∧ complains toks i expression_errors (expr n (at_pos toks i)))
  ∧ (∀ node, lands toks i (expr_loop n node (at_pos toks i))
             ∧ complains toks i expression_errors (expr_loop n node (at_pos toks i))).
Proof.
  induction n as [|n IH]; intros toks i Hi; [by repeat split|].
  assert (Heat : ∀ j, j ≤ length toks → type (tok_at toks j) ≠ EOF →
            lands toks (S j) (eat (type (tok_at toks j)) (at_pos toks j))
            ∧ complains toks j expression_errors
                (eat (type (tok_at toks j)) (at_pos toks j))).
  { intros j Hj Hne. apply eat_spec; [done..|by left]. }
  assert (Hloop : ∀ (f : nat → P ASTNode) (loop : nat → ASTNode → P ASTNode) ops node j,
            j ≤ length toks →
            (∀ ty, is_in ty ops = true → ty ≠ EOF) →
            (∀ j, j ≤ length toks →
               lands toks (S j) (f n (at_pos toks j))
               ∧ complains toks j expression_errors (f n (at_pos toks j))) →
            (∀ node j, j ≤ length toks →
               lands toks j (loop n node (at_pos toks j))
               ∧ complains toks j expression_errors (loop n node (at_pos toks j))) →
            let body :=
              (do* token := cur in
               if is_in (type token) ops then
                 do* _ := eat (type token) in
                 do* rhs := f n in
                 loop n (BinOp node token rhs)
               else pret node) in
            lands toks j (body (at_pos toks j))
            ∧ complains toks j expression_errors (body (at_pos toks j))).
  { intros f loop ops node j Hj Hops Hf Hl body. unfold body. rewrite cur_at.
    destruct (is_in (type (tok_at toks j)) ops) eqn:Hop.
    - destruct (Heat j Hj (Hops _ Hop)) as [H1 H2].
      eapply step; [exact (lands_weaken _ _ _ _ (Nat.le_refl _) H1)|exact H2|].
      intros _ j1 Hj1 _. destruct (Hf j1 ltac:(lia)) as [H3 H4].
      eapply step; [exact H3|refine (complains_weaken _ _ _ _ _ _ _ _ H4); [lia|done]|].
      intros rhs j2 Hj2 _. destruct (Hl (BinOp node (tok_at toks j) rhs) j2 ltac:(lia)) as [H5 H6].
      split; [refine (lands_weaken _ _ _ _ _ H5); lia|].
      refine (complains_weaken _ _ _ _ _ _ _ _ H6); [lia|done].
    - split; [|done]. simpl. exists j. split; [done|lia]. }
  assert (Hf : ∀ j, j ≤ length toks →
            lands toks (S j) (factor (S n) (at_pos toks j))
            ∧ complains toks j expression_errors (factor (S n) (at_pos toks j))).
  { intros j Hj. cbn [factor]. rewrite cur_at.
    destruct (type (tok_at toks j)) eqn:Hty; simpl;
      try (split; [done|]; apply factor_error;
           [by rewrite Hty|expression_error]).
    - rewrite <- Hty. eapply step; [apply Heat; [done|congruence]..|].
      intros _ j1 Hj1 _. split; [|done]. exists j1. split; [done|lia].
    - rewrite <- Hty. eapply step; [apply Heat; [done|congruence]..|].
      intros _ j1 Hj1 _. split; [|done]. exists j1. split; [done|lia].
    - rewrite <- Hty. eapply step; [apply Heat; [done|congruence]..|].
      intros _ j1 Hj1 _. split; [|done]. exists j1. split; [done|lia].
    - rewrite <- Hty. eapply step; [apply Heat; [done|congruence]..|].
      intros _ j1 Hj1 _.
      destruct (IH toks j1 ltac:(lia)) as (_ & _ & _ & [He1 He2] & _).
      eapply step; [exact He1|refine (complains_weaken _ _ _ _ _ _ _ _ He2); [lia|done]|].
      intros node j2 Hj2 _.
      destruct (eat_spec toks j2 RPAREN expression_errors ltac:(lia) ltac:(done))
        as [H1 H2].
      { right. split; [expression_error|done]. }
      eapply step; [exact H1|refine (complains_weaken _ _ _ _ _ _ _ _ H2); [lia|done]|].
      intros _ j3 Hj3 _. split; [|done]. exists j3. split; [done|lia]. }
  assert (Htl : ∀ node j, j ≤ length toks →
            lands toks j (term_loop (S n) node (at_pos toks j))
            ∧ complains toks j expression_errors
                (term_loop (S n) node (at_pos toks j))).
  { intros node j Hj. cbn [term_loop].
    apply (Hloop factor term_loop [MUL; DIV]); [done| | |].
    - intros ty. destruct ty; vm_compute; congruence.
    - intros j' Hj'. by apply (IH toks j').
    - intros node' j' Hj'. by apply (IH toks j'). }
  assert (Ht : ∀ j, j ≤ length toks →
            lands toks (S j) (term (S n) (at_pos toks j))
            ∧ complains toks j expression_errors (term (S n) (at_pos toks j))).
  { intros j Hj. cbn [term].
    destruct (IH toks j Hj) as ([H1 H2] & _).
    eapply step; [exact H1|exact H2|].
    intros node j1 Hj1 _.
    destruct (IH toks j1 ltac:(lia)) as (_ & _ & Hl & _).
    destruct (Hl node) as [H3 H4].
    split; [refine (lands_weaken _ _ _ _ _ H3); lia|].
    refine (complains_weaken _ _ _ _ _ _ _ _ H4); [lia|done]. }
  assert (Hel : ∀ node j, j ≤ length toks →
            lands toks j (expr_loop (S n) node (at_pos toks j))
            ∧ complains toks j expression_errors
                (expr_loop (S n) node (at_pos toks j))).
  { intros node j Hj. cbn [expr_loop].
    apply (Hloop term expr_loop [PLUS; MINUS]); [done| | |].
    - intros ty. destruct ty; vm_compute; congruence.
    - intros j' Hj'. by apply (IH toks j').
    - intros node' j' Hj'. by apply (IH toks j'). }
  assert (He : ∀ j, j ≤ length toks →
            lands toks (S j) (expr (S n) (at_pos toks j))
            ∧ complains toks j expression_errors (expr (S n) (at_pos toks j))).
  { intros j Hj. cbn [expr].
    destruct (IH toks j Hj) as (_ & [H1 H2] & _).
    eapply step; [exact H1|exact H2|].
    intros node j1 Hj1 _.
    destruct (IH toks j1 ltac:(lia)) as (_ & _ & _ & _ & Hl).
    destruct (Hl node) as [H3 H4].
    split; [refine (lands_weaken _ _ _ _ _ H3); lia|].
    refine (complains_weaken _ _ _ _ _ _ _ _ H4); [lia|done]. }
  repeat split; try (intros node); first [apply Hf|apply Ht|apply Htl|apply He|apply Hel]; done.
Qed.


Lemma expr_lands n toks i a p' :
  i ≤ length toks → expr n (at_pos toks i) = Parsed a p' →
  ∃ j, p' = at_pos toks j ∧ S i ≤ j ≤ length toks.
Proof.
  intros Hi H. destruct (expression_spec n toks i Hi) as (_ & _ & _ & [Hl _] & _).
  by rewrite H in Hl.
Qed.

Lemma term_lands n toks i a p' :
  i ≤ length toks → term n (at_pos toks i) = Parsed a p' →
  ∃ j, p' = at_pos toks j ∧ S i ≤ j ≤ length toks.
Proof.
  intros Hi H. destruct (expression_spec n toks i Hi) as (_ & [Hl _] & _).
  by rewrite H in Hl.
Qed.

Lemma factor_lands n toks i a p' :
  i ≤ length toks → factor n (at_pos toks i) = Parsed a p' →
  ∃ j, p' = at_pos toks j ∧ S i ≤ j ≤ length toks.
Proof.
  intros Hi H. destruct (expression_spec n toks i Hi) as ([Hl _] & _).
  by rewrite H in Hl.
Qed.

Lemma eat_lands toks i tt u p' :
  tt ≠ EOF → eat tt (at_pos toks i) = Parsed u p' →
  p' = at_pos toks (S i) ∧ S i ≤ length toks ∧ type (tok_at toks i) = tt.
Proof.
  intros Hne. unfold eat, error_expected.
  change (current_token (at_pos toks i)) with (tok_at toks i).
  destruct (bool_decide_reflect (type (tok_at toks i) = tt)) as [Heq|]; [|done].
  intros [= Hp]. subst p'. replace (i + 1) with (S i) by lia.
  split; [reflexivity|]. split; [|done].
  assert (i < length toks) by (apply in_range; congruence). lia.
Qed.

Lemma statement_spec n toks i :
  i ≤ length toks →
  lands toks (S i) (statement n (at_pos toks i))
  ∧ complains toks i statement_errors (statement n (at_pos toks i)).
Proof.
  intros Hi.
  assert (Hex : ∀ j, j ≤ length toks →
            lands toks (S j) (expr n (at_pos toks j))
            ∧ complains toks j statement_errors (expr n (at_pos toks j))).
  { intros j Hj. destruct (expression_spec n toks j Hj) as (_ & _ & _ & [H1 H2] & _).
    split; [done|]. refine (complains_weaken _ _ _ _ _ _ _ _ H2); [lia|].
    unfold expression_errors, statement_errors. intros x Hx.
    apply elem_of_cons in Hx as [->|Hx]; [repeat constructor|].
    apply elem_of_cons in Hx as [->|Hx]; [repeat constructor|].
    by apply elem_of_nil in Hx. }
  assert (Heat : ∀ tt j lo, j ≤ length toks → lo ≤ j →
            name tt ∈ statement_errors → tt ≠ EOF →
            name tt ≠ "number, identifier, or '('" →
            lands toks (S j) (eat tt (at_pos toks j))
            ∧ complains toks lo statement_errors (eat tt (at_pos toks j))).
  { intros tt j lo Hj Hlo Hin Hne Hnot.
    destruct (eat_spec toks j tt statement_errors Hj Hne) as [H1 H2];
      [by right|].
    split; [done|]. refine (complains_weaken _ _ _ _ _ _ _ _ H2); [lia|done]. }
  assert (Hrest : ∀ (mk : pyval → ASTNode → ASTNode) j, i ≤ j ≤ length toks →
            let body :=
              (do* token := cur in
               do* _ := eat IDENTIFIER in
               do* _ := eat ASSIGN in
               do* v := expr n in
               pret (mk (value token) v)) in
            lands toks (S i) (body (at_pos toks j))
            ∧ complains toks i statement_errors (body (at_pos toks j))).
  { intros mk j Hj body. unfold body. rewrite cur_at.
    eapply step; [apply (Heat IDENTIFIER j i); try done; try lia;
                  unfold statement_errors; repeat constructor..|].
    intros _ j1 Hj1 _.
    eapply step; [apply (Heat ASSIGN j1 i); try done; try lia;
                  unfold statement_errors; repeat constructor..|].
    intros _ j2 Hj2 _.
    destruct (Hex j2 ltac:(lia)) as [H1 H2].
    eapply step; [exact H1|refine (complains_weaken _ _ _ _ _ _ _ _ H2); [lia|done]|].
    intros v j3 Hj3 _. split; [|done]. exists j3. split; [done|lia]. }
  unfold statement.
  change (current_token (at_pos toks i)) with (tok_at toks i).
  destruct (bool_decide_reflect (type (tok_at toks i) = LET)) as [Hlet|_].
  - unfold var_decl.
    destruct (eat_spec toks i LET statement_errors Hi ltac:(done) ltac:(by left))
      as [H1 H2].
    eapply step; [exact H1|exact H2|].
    intros _ j1 Hj1 _. apply (Hrest VarDecl). lia.
  - destruct (_ && _ && _).
    + unfold assignment. apply (Hrest Assignment). lia.
    + apply Hex. done.
Qed.

(** The loop of [parse], from position [i]: it returns at an
    end-of-input token, with at most one more statement per token it
    went over. *)
Lemma parse_loop_spec n : ∀ toks i sts,
  i ≤ length toks →
  match parse_loop n sts (at_pos toks i) with
  | Parsed sts' p =>
      ∃ j, p = at_pos toks j ∧ i ≤ j ≤ length toks
           ∧ type (tok_at toks j) = EOF
           ∧ length sts' + i ≤ length sts + j
  | Failed e => complains (A:=unit) toks i statement_errors (Failed e)
  | OutOfFuel => True
  end.
Proof.
  induction n as [|n IH]; intros toks i sts Hi; [done|].
  cbn [parse_loop]. rewrite cur_at.
  destruct (bool_decide_reflect (type (tok_at toks i) = EOF)) as [Heof|Hne]; simpl.
  { exists i. repeat split; try done; lia. }
  destruct (statement_spec n toks i Hi) as [H1 H2].
  unfold pbind at 1.
  destruct (statement n (at_pos toks i)) as [st p1|e|]; [|exact H2|done].
  destruct H1 as (j1 & -> & Hj1). rewrite cur_at.
  assert (Hnext : ∀ j2, j1 ≤ j2 ≤ length toks →
            match parse_loop n (sts ++ [st]) (at_pos toks j2) with
            | Parsed sts' p =>
                ∃ j, p = at_pos toks j ∧ i ≤ j ≤ length toks
                     ∧ type (tok_at toks j) = EOF
                     ∧ length sts' + i ≤ length sts + j
            | Failed e => complains (A:=unit) toks i statement_errors (Failed e)
            | OutOfFuel => True
            end).
  { intros j2 Hj2. specialize (IH toks j2 (sts ++ [st]) ltac:(lia)).
    destruct (parse_loop n (sts ++ [st]) (at_pos toks j2)) as [sts' p|e|]; [| |done].
    - destruct IH as (j & -> & Hj & Hend & Hlen). exists j.
      rewrite length_app in Hlen. simpl in Hlen.
      repeat split; try done; lia.
    - refine (complains_weaken (A:=unit) _ _ _ _ _ _ _ _ IH); [lia|done]. }
  destruct (bool_decide_reflect (type (tok_at toks j1) = SEMICOLON)) as [Hsemi|_].
  - unfold pbind at 1.
    destruct (eat SEMICOLON (at_pos toks j1)) as [u p2|e|] eqn:Heat.
    + apply eat_lands in Heat as (-> & Hlt & _); [|done]. apply Hnext. lia.
    + unfold eat in Heat.
      change (current_token (at_pos toks j1)) with (tok_at toks j1) in Heat.
      by rewrite bool_decide_eq_true_2 in Heat.
    + done.
  - unfold pbind at 1, pret. apply Hnext. lia.
Qed.

(** *** Fuel *)

Lemma pbind_ends {A B} (m : P A) (k : A → P B) p :
  m p ≠ OutOfFuel →
  (∀ a p', m p = Parsed a p' → k a p' ≠ OutOfFuel) →
  pbind m k p ≠ OutOfFuel.
Proof.
  unfold pbind. destruct (m p) as [a p'| |]; [|done..].
  intros _ Hk. by apply Hk.
Qed.

Lemma eat_ends tt p : eat tt p ≠ OutOfFuel.
Proof. unfold eat, error_expected. by destruct (bool_decide _). Qed.

(** The fuel that is enough, from the number of tokens not yet read:
    each token is the head of at most one call of each of [expr], [term]
    and [factor]. *)
Lemma expression_ends n : ∀ toks i,
  i ≤ length toks →
  (3 * (length toks - i) + 1 ≤ n → factor n (at_pos toks i) ≠ OutOfFuel)
  ∧ (3 * (length toks - i) + 2 ≤ n → term n (at_pos toks i) ≠ OutOfFuel)
  ∧ (∀ node, 3 * (length toks - i) + 1 ≤ n →
             term_loop n node (at_pos toks i) ≠ OutOfFuel)
  ∧ (3 * (length toks - i) + 3 ≤ n → expr n (at_pos toks i) ≠ OutOfFuel)
  ∧ (∀ node, 3 * (length toks - i) + 2 ≤ n →
             expr_loop n node (at_pos toks i) ≠ OutOfFuel).
Proof.
  induction n as [|n IH]; intros toks i Hi; [repeat split; intros; lia|].
  assert (Hloop : ∀ (f : nat → P ASTNode) (loop : nat → ASTNode → P ASTNode)
                    ops node (c : nat),
            (∀ ty, is_in ty ops = true → ty ≠ EOF) →
            (∀ j a p', j ≤ length toks → f n (at_pos toks j) = Parsed a p' →
               ∃ j', p' = at_pos toks j' ∧ S j ≤ j' ≤ length toks) →
            (∀ j, j ≤ length toks → 3 * (length toks - j) + c ≤ n →
               f n (at_pos toks j) ≠ OutOfFuel) →
            (∀ node j, j ≤ length toks → 3 * (length toks - j) + c ≤ n →
               loop n node (at_pos toks j) ≠ OutOfFuel) →
            3 * (length toks - i) + c ≤ S n →
            (do* token := cur in
             if is_in (type token) ops then
               do* _ := eat (type token) in
               do* rhs := f n in
               loop n (BinOp node token rhs)
             else pret node) (at_pos toks i) ≠ OutOfFuel).
  { intros f loop ops node c Hops Hlands Hf Hl Hn. rewrite cur_at.
    destruct (is_in (type (tok_at toks i)) ops) eqn:Hop; [|done].
    apply pbind_ends; [apply eat_ends|]. intros u p1 He.
    apply eat_lands in He as (-> & Hlt & _); [|by apply Hops].
    apply pbind_ends; [apply Hf; lia|]. intros rhs p2 Hr.
    destruct (Hlands (S i) _ _ ltac:(lia) Hr) as (j2 & -> & Hj2).
    apply Hl; lia. }
  split; [|split; [|split; [|split]]].
  - intros Hn. cbn [factor]. rewrite cur_at.
    destruct (type (tok_at toks i)) eqn:Hty; simpl; try done;
      try (apply pbind_ends; [apply eat_ends|done]).
    apply pbind_ends; [apply eat_ends|]. intros u p1 He.
    apply eat_lands in He as (-> & Hlt & _); [|done].
    apply pbind_ends.
    + destruct (IH toks (S i) Hlt) as (_ & _ & _ & He & _). apply He. lia.
    + intros node p2 _. apply pbind_ends; [apply eat_ends|done].
  - intros Hn. cbn [term]. apply pbind_ends.
    + destruct (IH toks i Hi) as (Hf & _). apply Hf. lia.
    + intros node p1 Hf.
      destruct (factor_lands _ _ _ _ _ Hi Hf) as (j1 & -> & Hj1).
      destruct (IH toks j1 ltac:(lia)) as (_ & _ & Hl & _). apply Hl. lia.
  - intros node Hn. cbn [term_loop].
    apply (Hloop factor term_loop [MUL; DIV] node 1); try done.
    + intros ty. destruct ty; vm_compute; congruence.
    + intros j a p' Hj. by apply factor_lands.
    + intros j Hj. by apply (IH toks j).
    + intros node' j Hj. by apply (IH toks j).
  - intros Hn. cbn [expr]. apply pbind_ends.
    + destruct (IH toks i Hi) as (_ & Ht & _). apply Ht. lia.
    + intros node p1 Ht.
      destruct (term_lands _ _ _ _ _ Hi Ht) as (j1 & -> & Hj1).
      destruct (IH toks j1 ltac:(lia)) as (_ & _ & _ & _ & Hl). apply Hl. lia.
  - intros node Hn. cbn [expr_loop].
    apply (Hloop term expr_loop [PLUS; MINUS] node 2); try done.
    + intros ty. destruct ty; vm_compute; congruence.
    + intros j a p' Hj. by apply term_lands.
    + intros j Hj. by apply (IH toks j).
    + intros node' j Hj. by apply (IH toks j).
Qed.

Lemma statement_ends n toks i :
  i ≤ length toks → 3 * (length toks - i) + 3 ≤ n →
  statement n (at_pos toks i) ≠ OutOfFuel.
Proof.
  intros Hi Hn.
  assert (Hex : ∀ j, i ≤ j ≤ length toks → expr n (at_pos toks j) ≠ OutOfFuel).
  { intros j Hj. destruct (expression_ends n toks j ltac:(lia)) as (_ & _ & _ & He & _).
    apply He. lia. }
  assert (Hrest : ∀ (mk : pyval → ASTNode → ASTNode) j, i ≤ j ≤ length toks →
            (do* token := cur in
             do* _ := eat IDENTIFIER in
             do* _ := eat ASSIGN in
             do* v := expr n in
             pret (mk (value token) v)) (at_pos toks j) ≠ OutOfFuel).
  { intros mk j Hj. rewrite cur_at.
    apply pbind_ends; [apply eat_ends|]. intros u p1 He.
    apply eat_lands in He as (-> & Hlt & _); [|done].
    apply pbind_ends; [apply eat_ends|]. intros u' p2 He.
    apply eat_lands in He as (-> & Hlt' & _); [|done].
    apply pbind_ends; [apply Hex; lia|]. done. }
  unfold statement. destruct (bool_decide _).
  - unfold var_decl. apply pbind_ends; [apply eat_ends|]. intros u p1 He.
    apply eat_lands in He as (-> & Hlt & _); [|done].
    apply (Hrest VarDecl). lia.
  - destruct (_ && _ && _).
    + unfold assignment. apply (Hrest Assignment). lia.
    + apply Hex. lia.
Qed.

Lemma parse_loop_ends n : ∀ toks i sts,
  i ≤ length toks → 3 * (length toks - i) + 4 ≤ n →
  parse_loop n sts (at_pos toks i) ≠ OutOfFuel.
Proof.
  induction n as [|n IH]; intros toks i sts Hi Hn; [lia|].
  cbn [parse_loop]. rewrite cur_at.
  destruct (bool_decide (type (tok_at toks i) = EOF)); simpl; [done|].
  apply pbind_ends; [apply statement_ends; [done|lia]|].
  intros st p1 Hs. pose proof (statement_spec n toks i Hi) as [Hl _].
  rewrite Hs in Hl. destruct Hl as (j1 & -> & Hj1). rewrite cur_at.
  destruct (bool_decide (type (tok_at toks j1) = SEMICOLON)).
  - apply pbind_ends; [apply eat_ends|]. intros u p2 He.
    apply eat_lands in He as (-> & Hlt & _); [|done]. apply IH; lia.
  - apply pbind_ends; [done|]. intros u p2 [= Hp]. subst p2. apply IH; lia.
Qed.

Lemma parse_start t toks : mkParser (t :: toks) t 0 = at_pos (t :: toks) 0.
Proof. reflexivity. Qed.

(** [expr] moves forward: when it returns, the parser is on the same
    tokens, its current token is the one at its position (end-of-input
    past the end), and the position is beyond where it started and not
    beyond the end of the tokens.  No fuel is assumed. *)
Theorem expression_moves_forward n toks i a p' :
  i ≤ length toks →
  expr n (at_pos toks i) = Parsed a p' →
  ∃ j, p' = at_pos toks j ∧ i < j ≤ length toks.
Proof. intros Hi H. destruct (expr_lands _ _ _ _ _ Hi H) as (j & ? & ?). by exists j. Qed.

Lemma expression_moves_forward_witness :
  ∃ j, at_pos tokens_2_plus_3_times_4 5 = at_pos tokens_2_plus_3_times_4 j
       ∧ 0 < j ≤ length tokens_2_plus_3_times_4.
Proof.
  apply (expression_moves_forward 9 tokens_2_plus_3_times_4 0
           (BinOp (Num (token INTEGER (PInt 2))) (token PLUS PNone)
              (BinOp (Num (token INTEGER (PInt 3))) (token MUL PNone)
                 (Num (token INTEGER (PInt 4)))))).
  - simpl. lia.
  - vm_compute. reflexivity.
Defined.

(** The only errors of [expr]: a token that cannot start an operand,
    reported as "Expected number, identifier, or '('", and a missing
    closing parenthesis, reported as "Expected RPAREN".  The error
    carries the line, column and kind of a token at or after the start
    (the end-of-input token, with no line and column, past the end), and
    that kind is not the one asked for. *)
Theorem expression_reports n toks i e :
  i ≤ length toks →
  expr n (at_pos toks i) = Failed e →
  ∃ j expected,
    i ≤ j
    ∧ e = SyntaxError (line (tok_at toks j)) (column (tok_at toks j))
                      expected (type (tok_at toks j))
    ∧ expected ∈ expression_errors
    ∧ wanted expected (type (tok_at toks j)) = false.
Proof.
  intros Hi H. destruct (expression_spec n toks i Hi) as (_ & _ & _ & [_ Hc] & _).
  by rewrite H in Hc.
Qed.

Lemma expression_reports_witness :
  ∃ j expected,
    0 ≤ j
    ∧ SyntaxError PNone PNone "number, identifier, or '('" EOF
      = SyntaxError (line (tok_at tokens_1_plus j)) (column (tok_at tokens_1_plus j))
                    expected (type (tok_at tokens_1_plus j))
    ∧ expected ∈ expression_errors
    ∧ wanted expected (type (tok_at tokens_1_plus j)) = false.
Proof.
  apply (expression_reports 9 tokens_1_plus 0).
  - simpl. lia.
  - vm_compute. reflexivity.
Defined.

(** Where [parse] stops: when it returns, the tree is a [Program], the
    parser is at an end-of-input token of the list, or past the last
    token, and there are at most as many statements as tokens were
    read. *)
Theorem parse_stops_at_end_of_input n toks ast p :
  parse n toks = Parsed ast p →
  ∃ statements j,
    ast = Program statements ∧ p = at_pos toks j ∧ j ≤ length toks
    ∧ type (tok_at toks j) = EOF ∧ length statements ≤ j.
Proof.
  unfold parse. destruct toks as [|t toks]; [done|]. rewrite parse_start.
  pose proof (parse_loop_spec n (t :: toks) 0 [] ltac:(lia)) as H.
  destruct (parse_loop n [] (at_pos (t :: toks) 0)) as [sts p1| |]; [|done..].
  intros [= <- <-]. destruct H as (j & -> & Hj & Hend & Hlen).
  exists sts, j. simpl in Hlen. repeat split; try done; lia.
Qed.

Lemma parse_stops_at_end_of_input_witness :
  ∃ statements j,
    Program [VarDecl (PStr "x")
               (BinOp (Num (mkToken INTEGER (PInt 2) (PInt 1) (PInt 9)))
                      (mkToken PLUS PNone (PInt 1) (PInt 11))
                      (Num (mkToken INTEGER (PInt 3) (PInt 1) (PInt 13))));
             Assignment (PStr "x")
               (BinOp (Var (mkToken IDENTIFIER (PStr "x") (PInt 1) (PInt 20)))
                      (mkToken MUL PNone (PInt 1) (PInt 22))
                      (Num (mkToken INTEGER (PInt 4) (PInt 1) (PInt 24))))]
    = Program statements
    ∧ at_pos tokens_of_the_demonstration 12 = at_pos tokens_of_the_demonstration j
    ∧ j ≤ length tokens_of_the_demonstration
    ∧ type (tok_at tokens_of_the_demonstration j) = EOF
    ∧ length statements ≤ j.
Proof.
  apply (parse_stops_at_end_of_input 20 tokens_of_the_demonstration).
  vm_compute. reflexivity.
Defined.

(** What [parse] can raise: [IndexError] on an empty list of tokens (the
    constructor reads [tokens[0]]), and otherwise one of four syntax
    errors, the two of an expression and "Expected IDENTIFIER" and
    "Expected ASSIGN", at a token that is not what was asked for. *)
Theorem parse_reports n toks e :
  parse n toks = Failed e →
  (toks = [] ∧ e = IndexError)
  ∨ ∃ j expected,
      e = SyntaxError (line (tok_at toks j)) (column (tok_at toks j))
                      expected (type (tok_at toks j))
      ∧ expected ∈ statement_errors
      ∧ wanted expected (type (tok_at toks j)) = false.
Proof.
  unfold parse. destruct toks as [|t toks]; [intros [= <-]; by left|].
  rewrite parse_start.
  pose proof (parse_loop_spec n (t :: toks) 0 [] ltac:(lia)) as H.
  destruct (parse_loop n [] (at_pos (t :: toks) 0)) as [sts p1|e'|]; [done| |done].
  intros [= <-]. right. destruct H as (j & x & _ & H). by exists j, x.
Qed.

Lemma parse_reports_witness :
  (tokens_1_plus = []
   ∧ SyntaxError PNone PNone "number, identifier, or '('" EOF = IndexError)
  ∨ ∃ j expected,
      SyntaxError PNone PNone "number, identifier, or '('" EOF
      = SyntaxError (line (tok_at tokens_1_plus j)) (column (tok_at tokens_1_plus j))
                    expected (type (tok_at tokens_1_plus j))
      ∧ expected ∈ statement_errors
      ∧ wanted expected (type (tok_at tokens_1_plus j)) = false.
Proof. apply (parse_reports 20 tokens_1_plus). vm_compute. reflexivity. Defined.

(** [parse] ends: with fuel for three calls per token and four more the
    model never runs out, and more fuel gives the same answer, a
    [Program] or an error. *)
Theorem parse_ends toks n :
  3 * length toks + 4 ≤ n →
  parse n toks ≠ OutOfFuel
  ∧ parse n toks = parse (3 * length toks + 4) toks.
Proof.
  intros Hn.
  assert (Hends : ∀ m, 3 * length toks + 4 ≤ m → parse m toks ≠ OutOfFuel).
  { intros m Hm. unfold parse. destruct toks as [|t toks]; [done|].
    rewrite parse_start.
    pose proof (parse_loop_ends m (t :: toks) 0 [] ltac:(lia) ltac:(lia)) as H.
    by destruct (parse_loop m [] (at_pos (t :: toks) 0)). }
  split; [by apply Hends|].
  specialize (Hends _ (Nat.le_refl _)).
  unfold parse in *. destruct toks as [|t toks]; [done|].
  destruct (SintaxFacts.parse_loop_fuel (3 * length (t :: toks) + 4) n []
              (mkParser (t :: toks) t 0) Hn) as [H|H].
  - by rewrite H in Hends.
  - by rewrite H.
Qed.

Lemma parse_ends_witness :
  parse 20 tokens_1_plus ≠ OutOfFuel
  ∧ parse 20 tokens_1_plus = parse (3 * length tokens_1_plus + 4) tokens_1_plus.
Proof. apply (parse_ends tokens_1_plus 20). simpl. lia. Defined.


(** *** Chains, the other way round *)

Lemma chain_at_mono (f g : P ASTNode) ops toks :
  (∀ p a p', f p = Parsed a p' → g p = Parsed a p') →
  ∀ chain j j', chain_at f ops toks j chain j' → chain_at g ops toks j chain j'.
Proof.
  intros Hfg chain. induction chain as [|[op a] chain IH]; intros j j'; [done|].
  simpl. intros (Hop & Hin & j1 & Ha & Hc).
  split; [done|]. split; [done|]. exists j1. split; [by apply Hfg|by apply IH].
Qed.

(** What a loop returns is the tree it was given with a chain nested to
    its right hand, operand by operand. *)
Lemma loop_is_a_left_nest (f : nat → P ASTNode) (loop : nat → ASTNode → P ASTNode)
    (ops : list TokenType) :
  (∀ ty, is_in ty ops = true → ty ≠ EOF) →
  (∀ n m p a p', n ≤ m → f n p = Parsed a p' → f m p = Parsed a p') →
  (∀ n toks j a p', j ≤ length toks → f n (at_pos toks j) = Parsed a p' →
     ∃ j1, p' = at_pos toks j1 ∧ S j ≤ j1 ≤ length toks) →
  (∀ n node,
     loop (S n) node
     = (do* token := cur in
        if is_in (type token) ops then
          do* _ := eat (type token) in
          do* rhs := f n in
          loop n (BinOp node token rhs)
        else pret node)) →
  (∀ node p, loop 0 node p = OutOfFuel) →
  ∀ n toks j node a p',
    j ≤ length toks →
    loop n node (at_pos toks j) = Parsed a p' →
    ∃ chain j',
      chain_at (f n) ops toks j chain j'
      ∧ is_in (type (tok_at toks j')) ops = false
      ∧ a = nest_left node chain ∧ p' = at_pos toks j' ∧ j ≤ j' ≤ length toks.
Proof.
  intros Hops Hfuel Hlands Hstep Hzero.
  induction n as [|n IH]; intros toks j node a p' Hj; [by rewrite Hzero|].
  rewrite Hstep, cur_at.
  destruct (is_in (type (tok_at toks j)) ops) eqn:Hin.
  - unfold pbind at 1.
    destruct (eat (type (tok_at toks j)) (at_pos toks j)) as [u p1| |] eqn:He;
      [|done..].
    apply eat_lands in He as (-> & Hlt & _); [|by apply Hops].
    unfold pbind at 1.
    destruct (f n (at_pos toks (S j))) as [rhs p2| |] eqn:Hf; [|done..].
    destruct (Hlands _ _ _ _ _ Hlt Hf) as (j1 & -> & Hj1).
    intros Hl.
    destruct (IH toks j1 _ _ _ ltac:(lia) Hl) as (chain & j' & Hc & Hstop & -> & -> & Hj').
    exists ((tok_at toks j, rhs) :: chain), j'.
    split; [|split; [done|split; [done|split; [done|lia]]]].
    simpl. split; [done|]. split; [done|]. exists j1. split.
    + rewrite Nat.add_1_r. by apply (Hfuel n (S n)); [lia|].
    + apply (chain_at_mono (f n)); [|done].
      intros p a p'. apply Hfuel. lia.
  - intros [= <- <-]. exists [], j. repeat split; try done; lia.
Qed.

(** Every tree [expr] returns is a chain of [+] and [-] nested to the
    left, whose operands are what [term] parsed, one after each
    operator; and every tree [term] returns is such a chain of [*] and
    [/] over what [factor] parsed.  Nothing else comes out of the two
    loops. *)
Theorem every_parse_is_a_left_nest n toks i a p' :
  i ≤ length toks →
  (expr n (at_pos toks i) = Parsed a p' →
   ∃ first j chain j',
     term n (at_pos toks i) = Parsed first (at_pos toks j)
     ∧ chain_at (term n) [PLUS; MINUS] toks j chain j'
     ∧ is_in (type (tok_at toks j')) [PLUS; MINUS] = false
     ∧ a = nest_left first chain ∧ p' = at_pos toks j')
  ∧ (term n (at_pos toks i) = Parsed a p' →
     ∃ first j chain j',
       factor n (at_pos toks i) = Parsed first (at_pos toks j)
       ∧ chain_at (factor n) [MUL; DIV] toks j chain j'
       ∧ is_in (type (tok_at toks j')) [MUL; DIV] = false
       ∧ a = nest_left first chain ∧ p' = at_pos toks j').
Proof.
  intros Hi. destruct n as [|n]; [done|]. split.
  - cbn [expr]. unfold pbind at 1.
    destruct (term n (at_pos toks i)) as [first p1| |] eqn:Ht; [|done..].
    destruct (term_lands _ _ _ _ _ Hi Ht) as (j & -> & Hj). intros Hl.
    destruct (loop_is_a_left_nest term expr_loop [PLUS; MINUS]) with
      (n := n) (toks := toks) (j := j) (node := first) (a := a) (p' := p')
      as (chain & j' & Hc & Hstop & -> & -> & _); try done.
    + intros ty. destruct ty; vm_compute; congruence.
    + intros. by eapply SintaxFacts.term_fuel.
    + intros. by eapply term_lands.
    + lia.
    + exists first, j, chain, j'.
      split; [by apply (SintaxFacts.term_fuel n (S n)); [lia|]|].
      split; [|done].
      apply (chain_at_mono (term n)); [|done].
      intros p a p'. apply SintaxFacts.term_fuel. lia.
  - cbn [term]. unfold pbind at 1.
    destruct (factor n (at_pos toks i)) as [first p1| |] eqn:Ht; [|done..].
    destruct (factor_lands _ _ _ _ _ Hi Ht) as (j & -> & Hj). intros Hl.
    destruct (loop_is_a_left_nest factor term_loop [MUL; DIV]) with
      (n := n) (toks := toks) (j := j) (node := first) (a := a) (p' := p')
      as (chain & j' & Hc & Hstop & -> & -> & _); try done.
    + intros ty. destruct ty; vm_compute; congruence.
    + intros. by eapply SintaxFacts.factor_fuel.
    + intros. by eapply factor_lands.
    + lia.
    + exists first, j, chain, j'.
      split; [by apply (SintaxFacts.factor_fuel n (S n)); [lia|]|].
      split; [|done].
      apply (chain_at_mono (factor n)); [|done].
      intros p a p'. apply SintaxFacts.factor_fuel. lia.
Qed.

Lemma every_parse_is_a_left_nest_witness :
  ∃ first j chain j',
    term 7 (at_pos tokens_1_minus_2_minus_3_times_4 0)
    = Parsed first (at_pos tokens_1_minus_2_minus_3_times_4 j)
    ∧ chain_at (term 7) [PLUS; MINUS] tokens_1_minus_2_minus_3_times_4 j chain j'
    ∧ is_in (type (tok_at tokens_1_minus_2_minus_3_times_4 j')) [PLUS; MINUS] = false
    ∧ BinOp (BinOp (Num (token INTEGER (PInt 1))) (token MINUS PNone)
                   (Num (token INTEGER (PInt 2))))
            (token MINUS PNone)
            (BinOp (Num (token INTEGER (PInt 3))) (token MUL PNone)
                   (Num (token INTEGER (PInt 4))))
      = nest_left first chain
    ∧ at_pos tokens_1_minus_2_minus_3_times_4 7
      = at_pos tokens_1_minus_2_minus_3_times_4 j'.
Proof.
  apply (proj1 (every_parse_is_a_left_nest 7 tokens_1_minus_2_minus_3_times_4 0
                  _ _ ltac:(simpl; lia))).
  vm_compute. reflexivity.
Defined.

(** *** Statements *)

(** How [statement] chooses, by the token at hand and the one after it.
    [let] starts a declaration: an identifier and [=] must follow, and
    the node is [VarDecl] of the identifier's value and of the expression
    after [=]; a missing identifier or [=] is reported at its place.  An
    identifier followed by [=] starts an assignment.  Anything else, an
    identifier followed by something else or by nothing included, is an
    expression. *)
Theorem statement_dispatch n toks i :
  (type (tok_at toks i) = LET →
   statement n (at_pos toks i) =
     let name := tok_at toks (i + 1) in
     let eq := tok_at toks (i + 1 + 1) in
     if negb (bool_decide (type name = IDENTIFIER)) then
       Failed (SyntaxError (line name) (column name) "IDENTIFIER" (type name))
     else if negb (bool_decide (type eq = ASSIGN)) then
       Failed (SyntaxError (line eq) (column eq) "ASSIGN" (type eq))
     else match expr n (at_pos toks (i + 1 + 1 + 1)) with
          | Parsed v p' => Parsed (VarDecl (value name) v) p'
          | Failed e => Failed e
          | OutOfFuel => OutOfFuel
          end)
  ∧ (type (tok_at toks i) = IDENTIFIER →
     type (tok_at toks (i + 1)) = ASSIGN →
     statement n (at_pos toks i) =
       match expr n (at_pos toks (i + 1 + 1)) with
       | Parsed v p' => Parsed (Assignment (value (tok_at toks i)) v) p'
       | Failed e => Failed e
       | OutOfFuel => OutOfFuel
       end)
  ∧ (type (tok_at toks i) ≠ LET →
     type (tok_at toks i) ≠ IDENTIFIER ∨ type (tok_at toks (i + 1)) ≠ ASSIGN →
     statement n (at_pos toks i) = expr n (at_pos toks i)).
Proof.
  assert (Hahead : ∀ ty,
            match tokens (at_pos toks i) !! (pos (at_pos toks i) + 1) with
            | Some t => bool_decide (type t = ty)
            | None => false
            end = true → type (tok_at toks (i + 1)) = ty).
  { intros ty. unfold tok_at. simpl. destruct (toks !! (i + 1)); [|done].
    by intros ?%bool_decide_eq_true. }
  split; [|split].
  - intros Hlet. unfold statement.
    change (current_token (at_pos toks i)) with (tok_at toks i).
    rewrite bool_decide_eq_true_2 by done. unfold var_decl.
    unfold pbind at 1. rewrite SintaxFacts.eat_at by done. rewrite cur_at.
    unfold pbind at 1. cbv zeta.
    destruct (bool_decide_reflect (type (tok_at toks (i + 1)) = IDENTIFIER)) as [Hid|Hid].
    + rewrite SintaxFacts.eat_at by done. simpl negb. cbv iota.
      unfold pbind at 1.
      destruct (bool_decide_reflect (type (tok_at toks (i + 1 + 1)) = ASSIGN)) as [Has|Has].
      * rewrite SintaxFacts.eat_at by done. reflexivity.
      * unfold eat, error_expected.
        change (current_token (at_pos toks (i + 1 + 1))) with (tok_at toks (i + 1 + 1)).
        by rewrite bool_decide_eq_false_2.
    + unfold eat, error_expected.
      change (current_token (at_pos toks (i + 1))) with (tok_at toks (i + 1)).
      by rewrite bool_decide_eq_false_2.
  - intros Hid Has. unfold statement.
    change (current_token (at_pos toks i)) with (tok_at toks i).
    rewrite bool_decide_eq_false_2 by congruence.
    rewrite (bool_decide_eq_true_2 _ Hid).
    assert (Hin : (i + 1 < length toks)%nat).
    { apply in_range. congruence. }
    simpl. rewrite (bool_decide_eq_true_2 _ Hin).
    unfold tok_at in Has. destruct (toks !! (i + 1)) as [t|] eqn:Ht; [|done].
    rewrite (bool_decide_eq_true_2 _ Has). simpl.
    unfold assignment. rewrite cur_at.
    unfold pbind at 1. rewrite SintaxFacts.eat_at by done.
    unfold pbind at 1. rewrite SintaxFacts.eat_at; [reflexivity|].
    unfold tok_at. by rewrite Ht.
  - intros Hlet Hno. unfold statement.
    change (current_token (at_pos toks i)) with (tok_at toks i).
    rewrite bool_decide_eq_false_2 by done.
    destruct (_ && _ && _) eqn:Hb; [|reflexivity].
    apply andb_prop in Hb as [Hb Hah]. apply andb_prop in Hb as [Hid _].
    apply bool_decide_eq_true in Hid. apply Hahead in Hah.
    by destruct Hno.
Qed.

Lemma statement_dispatch_witness :
  statement 6 (at_pos tokens_of_the_demonstration 0)
  = Parsed (VarDecl (PStr "x")
              (BinOp (Num (mkToken INTEGER (PInt 2) (PInt 1) (PInt 9)))
                     (mkToken PLUS PNone (PInt 1) (PInt 11))
                     (Num (mkToken INTEGER (PInt 3) (PInt 1) (PInt 13)))))
           (at_pos tokens_of_the_demonstration 6).
Proof.
  apply (proj1 (statement_dispatch 6 tokens_of_the_demonstration 0)).
  reflexivity.
Defined.

End ParserFacts.
